(** * Byte-AI: the response parser and the live voice client

    A shallow embedding of two pieces of [services/geminiService.ts]:
    - [parseModelJSON], the tolerant extraction of a JSON object from a
      model reply (the specification calls it [parseStructured]);
    - [LiveClient], the duplex voice session ([connect], the capture
      callback, the message handler and [disconnect]).

    JavaScript strings are sequences of UTF-16 code units, modelled as
    lists of [N].  Exceptions are explicit: a call either completes
    normally or throws, and [try]/[catch] is a combinator.  [JSON.parse]
    is a parameter of the parser, and the outcomes of the platform calls
    of [connect] are parameters of [connect]; a reference decoder for
    the JSON grammar is given so that the parser can be run on concrete
    texts.  [atob] and [btoa] are defined after the HTML standard. *)

From Stdlib Require Import List ZArith NArith QArith Qminmax Qabs Bool Lia String Ascii.
Import ListNotations.

Set Warnings "-register-all".
Local Open Scope Z_scope.

(* ===================================================================== *)
(** ** JavaScript strings                                                 *)
(* ===================================================================== *)

Definition code_unit : Type := N.
Definition jsstring : Type := list code_unit.

(** A literal: every character of a Rocq string is one code unit. *)
Definition js (s : string) : jsstring :=
  map N_of_ascii (list_ascii_of_string s).

(** A literal of JSON text, written with apostrophes where the text has
    double quotes. *)
Definition jsq (s : string) : jsstring :=
  map (fun c => if N.eqb c 39 then 34%N else c) (js s).

Definition LBRACE : code_unit := 123%N.
Definition RBRACE : code_unit := 125%N.

Fixpoint jsstring_eqb (a b : jsstring) : bool :=
  match a, b with
  | [], [] => true
  | x :: a', y :: b' => N.eqb x y && jsstring_eqb a' b'
  | _, _ => false
  end.

(** [s.startsWith(p)] *)
Fixpoint starts_with (p s : jsstring) : bool :=
  match p, s with
  | [], _ => true
  | x :: p', y :: s' => N.eqb x y && starts_with p' s'
  | _ :: _, [] => false
  end.

(** [s.includes(p)] *)
Fixpoint includes (p s : jsstring) : bool :=
  starts_with p s ||
  match s with
  | [] => false
  | _ :: s' => includes p s'
  end.

(** [s.replace(/p/g, '')] for a literal, non-empty pattern [p]: the
    matches are found left to right and do not overlap; [skip] counts the
    code units of the current match that are still to be dropped. *)
Fixpoint remove_matches (p : jsstring) (skip : nat) (s : jsstring) : jsstring :=
  match s with
  | [] => []
  | c :: s' =>
      match skip with
      | S k => remove_matches p k s'
      | O =>
          if starts_with p s
          then remove_matches p (Nat.pred (List.length p)) s'
          else c :: remove_matches p O s'
      end
  end.

Definition replace_all_empty (p s : jsstring) : jsstring :=
  remove_matches p O s.

(** White space and line terminators of ECMAScript, as [trim] sees them. *)
Definition is_js_whitespace (c : code_unit) : bool :=
  let c := Z.of_N c in
  (9 <=? c) && (c <=? 13) || (c =? 32) || (c =? 160) || (c =? 5760)
  || (8192 <=? c) && (c <=? 8202) || (c =? 8232) || (c =? 8233)
  || (c =? 8239) || (c =? 8287) || (c =? 12288) || (c =? 65279).

Fixpoint trim_start (s : jsstring) : jsstring :=
  match s with
  | [] => []
  | c :: s' => if is_js_whitespace c then trim_start s' else s
  end.

Definition trim_end (s : jsstring) : jsstring := rev (trim_start (rev s)).

Definition trim (s : jsstring) : jsstring := trim_end (trim_start s).

(** [s.indexOf(c)]: the first position of [c], or [-1]. *)
Fixpoint indexOf_from (c : code_unit) (i : Z) (s : jsstring) : Z :=
  match s with
  | [] => -1
  | x :: s' => if N.eqb x c then i else indexOf_from c (i + 1) s'
  end.

Definition indexOf (s : jsstring) (c : code_unit) : Z := indexOf_from c 0 s.

(** [s.lastIndexOf(c)]: the last position of [c], or [-1]. *)
Fixpoint lastIndexOf_from (c : code_unit) (i : Z) (found : Z) (s : jsstring) : Z :=
  match s with
  | [] => found
  | x :: s' => lastIndexOf_from c (i + 1) (if N.eqb x c then i else found) s'
  end.

Definition lastIndexOf (s : jsstring) (c : code_unit) : Z :=
  lastIndexOf_from c 0 (-1) s.

(** [s.substring(a)] and [s.substring(a, b)]; negative arguments count
    as 0 and the arguments are swapped when [a > b], as in ECMAScript. *)
Definition clamp (s : jsstring) (i : Z) : nat :=
  Nat.min (Z.to_nat i) (List.length s).

Definition substring_from (s : jsstring) (a : Z) : jsstring :=
  skipn (clamp s a) s.

Definition substring (s : jsstring) (a b : Z) : jsstring :=
  let lo := Nat.min (clamp s a) (clamp s b) in
  let hi := Nat.max (clamp s a) (clamp s b) in
  firstn (hi - lo) (skipn lo s).

(* ===================================================================== *)
(** ** Completions, JSON values and the effects of the parser             *)
(* ===================================================================== *)

Inductive exn : Type :=
  | SyntaxError
  | RangeError
  | NotSupportedError
  | InvalidCharacterError
  | InvalidStateError
  | NotAllowedError
  | NetworkError.

Inductive completion (A : Type) : Type :=
  | Normal (a : A)
  | Throw (e : exn).
Arguments Normal {A} a.
Arguments Throw {A} e.

(** What [JSON.parse] returns.  Numbers are read as exact rationals (the
    rounding of IEEE doubles is left out); an object keeps its
    properties in insertion order. *)
Inductive value : Type :=
  | JNull
  | JBool (b : bool)
  | JNumber (q : Q)
  | JString (s : jsstring)
  | JArray (xs : list value)
  | JObject (props : list (jsstring * value)).

Definition is_object (v : value) : Prop :=
  match v with JObject _ => True | _ => False end.

(** What the parser does besides returning: the calls of [JSON.parse],
    with their argument, and the calls of [console.error]. *)
Inductive event : Type :=
  | Decode (s : jsstring)
  | ConsoleError (e : exn).

Definition eff (A : Type) : Type := (completion A * list event)%type.

Definition ret {A} (a : A) : eff A := (Normal a, []).

Definition bind {A B} (m : eff A) (k : A -> eff B) : eff B :=
  match m with
  | (Normal a, l) => let (r, l') := k a in (r, l ++ l')
  | (Throw e, l) => (Throw e, l)
  end.

Definition try_catch {A} (body : eff A) (handler : exn -> eff A) : eff A :=
  match body with
  | (Normal a, l) => (Normal a, l)
  | (Throw e, l) => let (r, l') := handler e in (r, l ++ l')
  end.

Definition console_error (e : exn) : eff unit := (Normal tt, [ConsoleError e]).

Notation "x <- m ;; k" := (bind m (fun x => k))
  (at level 61, m at next level, right associativity).
Notation "'TRY' b 'CATCH' e '=>' h" := (try_catch b (fun e => h))
  (at level 10, e name, b at level 100, h at level 200).

Definition outcome {A} (m : eff A) : completion A := fst m.
Definition events {A} (m : eff A) : list event := snd m.

(** The strings handed to [JSON.parse], in order. *)
Fixpoint decode_attempts (l : list event) : list jsstring :=
  match l with
  | [] => []
  | Decode s :: l' => s :: decode_attempts l'
  | ConsoleError _ :: l' => decode_attempts l'
  end.

(* ===================================================================== *)
(** ** [parseModelJSON]                                                   *)
(* ===================================================================== *)

Definition FENCE_JSON : jsstring := js "```json".
Definition FENCE : jsstring := js "```".

(** The [for] loop of stage 4: [i] is the index of the head of [s],
    [balance] the depth so far; the result is [end], [-1] when the
    depth never returns to zero. *)
Fixpoint find_balanced_end (i balance : Z) (s : jsstring) : Z :=
  match s with
  | [] => -1
  | c :: s' =>
      if N.eqb c LBRACE then find_balanced_end (i + 1) (balance + 1) s'
      else if N.eqb c RBRACE then
        let balance := balance - 1 in
        if balance =? 0 then i else find_balanced_end (i + 1) balance s'
      else find_balanced_end (i + 1) balance s'
  end.

(** Stage 1: both [replace] calls and the [trim]. *)
Definition strip_markdown (text : jsstring) : jsstring :=
  trim (replace_all_empty FENCE (replace_all_empty FENCE_JSON text)).

Section Parser.

(** [JSON.parse], a built-in of the platform. *)
Variable JSON_parse : jsstring -> completion value.

Definition call_JSON_parse (s : jsstring) : eff value :=
  (JSON_parse s, [Decode s]).

Definition parseModelJSON (text : jsstring) : eff value :=
  match text with
  | [] => ret JNull
  | _ =>
    let clean := strip_markdown text in
    let start := indexOf clean LBRACE in
    if start =? -1 then ret JNull else
    let clean := substring_from clean start in
    TRY call_JSON_parse clean
    CATCH e =>
      let end_ := find_balanced_end 0 0 clean in
      if negb (end_ =? -1) then
        TRY call_JSON_parse (substring clean 0 (end_ + 1))
        CATCH innerE =>
          let lastBrace := lastIndexOf clean RBRACE in
          if negb (lastBrace =? -1) then
            TRY call_JSON_parse (substring clean 0 (lastBrace + 1))
            CATCH finalE =>
              _ <- console_error finalE ;;
              ret JNull
          else ret JNull
      else ret JNull
  end.

(** The text handed to the fast path. *)
Definition located (text : jsstring) : jsstring :=
  substring_from (strip_markdown text) (indexOf (strip_markdown text) LBRACE).

Definition balanced_prefix (clean : jsstring) : jsstring :=
  substring clean 0 (find_balanced_end 0 0 clean + 1).

Definition last_brace_prefix (clean : jsstring) : jsstring :=
  substring clean 0 (lastIndexOf clean RBRACE + 1).

(** The body of [parseModelJSON] once a [{] is located, stage by stage. *)
Definition recover (clean : jsstring) : eff value :=
  match JSON_parse clean with
  | Normal v => (Normal v, [Decode clean])
  | Throw _ =>
      if find_balanced_end 0 0 clean =? -1 then (Normal JNull, [Decode clean])
      else
        match JSON_parse (balanced_prefix clean) with
        | Normal v => (Normal v, [Decode clean; Decode (balanced_prefix clean)])
        | Throw _ =>
            if lastIndexOf clean RBRACE =? -1
            then (Normal JNull, [Decode clean; Decode (balanced_prefix clean)])
            else
              match JSON_parse (last_brace_prefix clean) with
              | Normal v =>
                  (Normal v, [Decode clean; Decode (balanced_prefix clean);
                              Decode (last_brace_prefix clean)])
              | Throw e =>
                  (Normal JNull, [Decode clean; Decode (balanced_prefix clean);
                                  Decode (last_brace_prefix clean); ConsoleError e])
              end
        end
  end.

(** In the words of the specification: the last-resort decode, of the
    text up to and including its last [}], is among the attempts. *)
Definition last_resort_attempted (text : jsstring) : Prop :=
  In (last_brace_prefix (located text))
     (decode_attempts (events (parseModelJSON text))).

End Parser.

(* ===================================================================== *)
(** ** [JSON.stringify] and a reference [JSON.parse]                      *)
(* ===================================================================== *)

Definition hex_digit (n : N) : code_unit :=
  if (n <? 10)%N then (48 + n)%N else (87 + n)%N.

(** [\uXXXX], lower-case digits, as [JSON.stringify] writes it. *)
Definition unicode_escape (c : code_unit) : jsstring :=
  [92%N; 117%N;
   hex_digit (N.modulo (N.div c 4096) 16); hex_digit (N.modulo (N.div c 256) 16);
   hex_digit (N.modulo (N.div c 16) 16); hex_digit (N.modulo c 16)].

Definition is_high_surrogate (c : code_unit) : bool :=
  ((55296 <=? c) && (c <=? 56319))%N.
Definition is_low_surrogate (c : code_unit) : bool :=
  ((56320 <=? c) && (c <=? 57343))%N.

(** One code unit inside a quoted string, when it is not half of a
    well-formed surrogate pair. *)
Definition quote_unit (c : code_unit) : jsstring :=
  if (c =? 8)%N then js "\b"
  else if (c =? 9)%N then js "\t"
  else if (c =? 10)%N then js "\n"
  else if (c =? 12)%N then js "\f"
  else if (c =? 13)%N then js "\r"
  else if (c =? 34)%N then [92%N; 34%N]
  else if (c =? 92)%N then [92%N; 92%N]
  else if (c <? 32)%N then unicode_escape c
  else if is_high_surrogate c || is_low_surrogate c then unicode_escape c
  else [c].

Fixpoint quote_body (s : jsstring) : jsstring :=
  match s with
  | [] => []
  | c :: s' =>
      match s' with
      | d :: s'' =>
          if is_high_surrogate c && is_low_surrogate d
          then c :: d :: quote_body s''
          else quote_unit c ++ quote_body s'
      | [] => quote_unit c
      end
  end.

(** [QuoteJSONString] *)
Definition quote (s : jsstring) : jsstring :=
  34%N :: quote_body s ++ [34%N].

Fixpoint join_comma (parts : list jsstring) : jsstring :=
  match parts with
  | [] => []
  | [p] => p
  | p :: rest => p ++ 44%N :: join_comma rest
  end.

Section Stringify.

(** [Number::toString], a built-in of the platform. *)
Variable number_to_string : Q -> jsstring.

(** [JSON.stringify(v)] without indentation. *)
Fixpoint JSON_stringify (v : value) : jsstring :=
  match v with
  | JNull => js "null"
  | JBool true => js "true"
  | JBool false => js "false"
  | JNumber q => number_to_string q
  | JString s => quote s
  | JArray xs => 91%N :: join_comma (map JSON_stringify xs) ++ [93%N]
  | JObject props =>
      LBRACE ::
      join_comma
        (map (fun kv => quote (fst kv) ++ 58%N :: JSON_stringify (snd kv)) props)
      ++ [RBRACE]
  end.

End Stringify.

Module JSONRef.

Local Open Scope N_scope.

Definition is_json_ws (c : code_unit) : bool :=
  (c =? 9) || (c =? 10) || (c =? 13) || (c =? 32).

Fixpoint skip_ws (s : jsstring) : jsstring :=
  match s with
  | [] => []
  | c :: s' => if is_json_ws c then skip_ws s' else s
  end.

Definition digit_of (c : code_unit) : option Z :=
  if (48 <=? c) && (c <=? 57) then Some (Z.of_N (c - 48)) else None.

Definition hex_of (c : code_unit) : option N :=
  if (48 <=? c) && (c <=? 57) then Some (c - 48)
  else if (97 <=? c) && (c <=? 102) then Some (c - 87)
  else if (65 <=? c) && (c <=? 70) then Some (c - 55)
  else None.

Definition hex4 (a b c d : code_unit) : option code_unit :=
  match hex_of a, hex_of b, hex_of c, hex_of d with
  | Some x, Some y, Some z, Some w => Some (((x * 16 + y) * 16 + z) * 16 + w)
  | _, _, _, _ => None
  end.

Definition escape_of (c : code_unit) : option code_unit :=
  if c =? 34 then Some 34
  else if c =? 92 then Some 92
  else if c =? 47 then Some 47
  else if c =? 98 then Some 8
  else if c =? 102 then Some 12
  else if c =? 110 then Some 10
  else if c =? 114 then Some 13
  else if c =? 116 then Some 9
  else None.

(** The characters of a string literal after its opening quote. *)
Fixpoint read_string (s acc : jsstring) : option (jsstring * jsstring) :=
  match s with
  | [] => None
  | c :: s' =>
      if c =? 34 then Some (rev acc, s')
      else if c =? 92 then
        match s' with
        | [] => None
        | e :: s'' =>
            if e =? 117 then
              match s'' with
              | h1 :: h2 :: h3 :: h4 :: s3 =>
                  match hex4 h1 h2 h3 h4 with
                  | Some u => read_string s3 (u :: acc)
                  | None => None
                  end
              | _ => None
              end
            else
              match escape_of e with
              | Some x => read_string s'' (x :: acc)
              | None => None
              end
        end
      else if c <? 32 then None
      else read_string s' (c :: acc)
  end.

(** A run of decimal digits: its value after [acc], its length, the rest. *)
Fixpoint read_digits (s : jsstring) (acc : Z) (n : nat) : Z * nat * jsstring :=
  match s with
  | [] => (acc, n, [])
  | c :: s' =>
      match digit_of c with
      | Some d => read_digits s' (acc * 10 + d)%Z (S n)
      | None => (acc, n, s)
      end
  end.

Definition scale (m k : Z) : Q :=
  if (0 <=? k)%Z then inject_Z (m * 10 ^ k)
  else Qred (Qmake m (Z.to_pos (10 ^ (- k)))).

Definition read_sign (s : jsstring) : bool * jsstring :=
  match s with
  | c :: s' => if c =? 45 then (true, s') else (false, s)
  | [] => (false, s)
  end.

Definition read_exp_sign (s : jsstring) : bool * jsstring :=
  match s with
  | c :: s' =>
      if c =? 45 then (true, s') else if c =? 43 then (false, s') else (false, s)
  | [] => (false, s)
  end.

Definition read_fraction (ip : Z) (s : jsstring) : option (Z * nat * jsstring) :=
  match s with
  | p :: s' =>
      if p =? 46 then
        match read_digits s' ip 0 with
        | (_, O, _) => None
        | r => Some r
        end
      else Some (ip, O, s)
  | [] => Some (ip, O, s)
  end.

Definition read_exponent (s : jsstring) : option (Z * jsstring) :=
  match s with
  | e :: s' =>
      if (e =? 101) || (e =? 69) then
        let (neg, s'') := read_exp_sign s' in
        match read_digits s'' 0%Z 0 with
        | (_, O, _) => None
        | (v, _, r) => Some ((if neg then - v else v)%Z, r)
        end
      else Some (0%Z, s)
  | [] => Some (0%Z, s)
  end.

(** A number literal: [-? int frac? exp?]. *)
Definition read_number (s : jsstring) : option (Q * jsstring) :=
  let (neg, s1) := read_sign s in
  match s1 with
  | [] => None
  | c :: s2 =>
      match digit_of c with
      | None => None
      | Some d =>
          let (ip, s3) :=
            if (d =? 0)%Z then (0%Z, s2)
            else let '(v, _, r) := read_digits s2 d 1 in (v, r) in
          match read_fraction ip s3 with
          | None => None
          | Some (m, fd, s4) =>
              match read_exponent s4 with
              | None => None
              | Some (e, rest) =>
                  Some (scale (if neg then - m else m) (e - Z.of_nat fd), rest)
              end
          end
      end
  end.

(** [obj[k] = v]: a property that exists keeps its place. *)
Fixpoint set_prop (k : jsstring) (v : value) (props : list (jsstring * value))
  : list (jsstring * value) :=
  match props with
  | [] => [(k, v)]
  | (k', v') :: rest =>
      if jsstring_eqb k k' then (k, v) :: rest else (k', v') :: set_prop k v rest
  end.

Section Composite.

Variable read_value : jsstring -> option (value * jsstring).

(** After [[] or a comma: [value (, value)* ]]. *)
Fixpoint read_elements (n : nat) (s : jsstring) (acc : list value)
  : option (value * jsstring) :=
  match n with
  | O => None
  | S n' =>
      match read_value s with
      | None => None
      | Some (v, s1) =>
          match skip_ws s1 with
          | d :: s2 =>
              if d =? 44 then read_elements n' s2 (v :: acc)
              else if d =? 93 then Some (JArray (rev (v :: acc)), s2)
              else None
          | [] => None
          end
      end
  end.

(** After [{] or a comma: [string : value (, string : value)* }]. *)
Fixpoint read_members (n : nat) (s : jsstring) (acc : list (jsstring * value))
  : option (value * jsstring) :=
  match n with
  | O => None
  | S n' =>
      match skip_ws s with
      | q :: s1 =>
          if q =? 34 then
            match read_string s1 [] with
            | None => None
            | Some (k, s2) =>
                match skip_ws s2 with
                | col :: s3 =>
                    if col =? 58 then
                      match read_value s3 with
                      | None => None
                      | Some (v, s4) =>
                          match skip_ws s4 with
                          | d :: s5 =>
                              if d =? 44 then read_members n' s5 (set_prop k v acc)
                              else if d =? 125
                                   then Some (JObject (set_prop k v acc), s5)
                              else None
                          | [] => None
                          end
                      end
                    else None
                | [] => None
                end
            end
          else None
      | [] => None
      end
  end.

End Composite.

Definition read_literal (lit : jsstring) (v : value) (s : jsstring)
  : option (value * jsstring) :=
  if starts_with lit s then Some (v, skipn (List.length lit) s) else None.

(** One JSON value, leading white space skipped; [fuel] bounds the
    nesting depth. *)
Fixpoint read_value (fuel : nat) (s : jsstring) : option (value * jsstring) :=
  match fuel with
  | O => None
  | S f =>
      match skip_ws s with
      | [] => None
      | c :: s' =>
          if c =? 123 then
            match skip_ws s' with
            | d :: s'' =>
                if d =? 125 then Some (JObject [], s'')
                else read_members (read_value f) (List.length s') s' []
            | [] => None
            end
          else if c =? 91 then
            match skip_ws s' with
            | d :: s'' =>
                if d =? 93 then Some (JArray [], s'')
                else read_elements (read_value f) (List.length s') s' []
            | [] => None
            end
          else if c =? 34 then
            match read_string s' [] with
            | Some (str, rest) => Some (JString str, rest)
            | None => None
            end
          else if c =? 116 then read_literal (js "true") (JBool true) (c :: s')
          else if c =? 102 then read_literal (js "false") (JBool false) (c :: s')
          else if c =? 110 then read_literal (js "null") JNull (c :: s')
          else
            match read_number (c :: s') with
            | Some (q, rest) => Some (JNumber q, rest)
            | None => None
            end
      end
  end.

(** [JSON.parse(s)] without a reviver: one value, then only white
    space; anything else is a [SyntaxError]. *)
Definition JSON_parse (s : jsstring) : completion value :=
  match read_value (S (List.length s)) s with
  | Some (v, rest) =>
      match skip_ws rest with
      | [] => Normal v
      | _ :: _ => Throw SyntaxError
      end
  | None => Throw SyntaxError
  end.

(** Decimal digits of a natural number, most significant first. *)
Fixpoint digits_fuel (fuel : nat) (n : N) (acc : jsstring) : jsstring :=
  match fuel with
  | O => acc
  | S f =>
      let acc := (48 + N.modulo n 10) :: acc in
      if n / 10 =? 0 then acc else digits_fuel f (n / 10) acc
  end.

Definition digits (n : N) : jsstring := digits_fuel (S (N.to_nat (N.log2 n))) n [].

(** Digits after the decimal point of [r / d], while they last. *)
Fixpoint fraction_digits (fuel : nat) (r d : N) : jsstring :=
  match fuel with
  | O => []
  | S f =>
      if r =? 0 then []
      else (48 + (r * 10) / d) :: fraction_digits f (N.modulo (r * 10) d) d
  end.

(** [Number::toString] in decimal notation, for the rationals with a
    finite decimal expansion. *)
Definition number_to_string (q : Q) : jsstring :=
  let q := Qred q in
  let n := Z.abs_N (Qnum q) in
  let d := Npos (Qden q) in
  let sign := if (Qnum q <? 0)%Z then [45] else [] in
  let frac := fraction_digits (S (N.to_nat (N.log2 d))) (N.modulo n d) d in
  sign ++ digits (n / d) ++ match frac with [] => [] | _ => 46 :: frac end.

Definition JSON_stringify : value -> jsstring :=
  JSON_stringify number_to_string.

End JSONRef.

(* ===================================================================== *)
(** ** [atob] and [btoa]                                                  *)
(* ===================================================================== *)

(** The two base64 built-ins, after the forgiving-base64 algorithms of
    the HTML standard.  A binary string is a string of code units below
    256. *)
Module Base64.

Local Open Scope N_scope.

Definition sextet_of (c : code_unit) : option N :=
  if (65 <=? c) && (c <=? 90) then Some (c - 65)
  else if (97 <=? c) && (c <=? 122) then Some (c - 71)
  else if (48 <=? c) && (c <=? 57) then Some (c + 4)
  else if c =? 43 then Some 62
  else if c =? 47 then Some 63
  else None.

Definition char_of (n : N) : code_unit :=
  if n <? 26 then 65 + n
  else if n <? 52 then 71 + n
  else if n <? 62 then n - 4
  else if n =? 62 then 43
  else 47.

Definition is_ascii_whitespace (c : code_unit) : bool :=
  (c =? 9) || (c =? 10) || (c =? 12) || (c =? 13) || (c =? 32).

Definition strip_padding (s : jsstring) : jsstring :=
  if (Nat.modulo (List.length s) 4 =? 0)%nat then
    match rev s with
    | 61 :: 61 :: r => rev r
    | 61 :: r => rev r
    | _ => s
    end
  else s.

Fixpoint sextets (s : jsstring) : option (list N) :=
  match s with
  | [] => Some []
  | c :: s' =>
      match sextet_of c, sextets s' with
      | Some x, Some l => Some (x :: l)
      | _, _ => None
      end
  end.

Fixpoint bytes_of_sextets (l : list N) : list N :=
  match l with
  | a :: b :: c :: d :: rest =>
      let n := ((a * 64 + b) * 64 + c) * 64 + d in
      n / 65536 :: N.modulo (n / 256) 256 :: N.modulo n 256 :: bytes_of_sextets rest
  | [a; b; c] =>
      let n := ((a * 64 + b) * 64 + c) / 4 in
      [n / 256; N.modulo n 256]
  | [a; b] => [(a * 64 + b) / 16]
  | _ => []
  end.

Definition atob (data : jsstring) : completion jsstring :=
  let data := filter (fun c => negb (is_ascii_whitespace c)) data in
  let data := strip_padding data in
  if (Nat.modulo (List.length data) 4 =? 1)%nat then Throw InvalidCharacterError
  else
    match sextets data with
    | None => Throw InvalidCharacterError
    | Some l => Normal (bytes_of_sextets l)
    end.

Fixpoint chars_of_bytes (l : list N) : jsstring :=
  match l with
  | a :: b :: c :: rest =>
      let n := (a * 256 + b) * 256 + c in
      char_of (n / 262144) :: char_of (N.modulo (n / 4096) 64)
      :: char_of (N.modulo (n / 64) 64) :: char_of (N.modulo n 64)
      :: chars_of_bytes rest
  | [a; b] =>
      let n := (a * 256 + b) * 4 in
      [char_of (n / 4096); char_of (N.modulo (n / 64) 64); char_of (N.modulo n 64); 61]
  | [a] =>
      let n := a * 16 in
      [char_of (n / 64); char_of (N.modulo n 64); 61; 61]
  | [] => []
  end.

Definition btoa (binary : jsstring) : completion jsstring :=
  if forallb (fun c => c <? 256) binary
  then Normal (chars_of_bytes binary)
  else Throw InvalidCharacterError.

End Base64.

(* ===================================================================== *)
(** ** The helpers of the Live API                                        *)
(* ===================================================================== *)

(** Audio samples and the playback clock are rationals: a sample of a
    16-bit PCM stream divided by 32768 is exact in a float as well. *)

(** [decode(base64)]: the bytes of [atob(base64)] in a [Uint8Array]. *)
Definition decode (base64 : jsstring) : completion (list N) :=
  match Base64.atob base64 with
  | Normal binaryString => Normal (map (fun c => N.modulo c 256) binaryString)
  | Throw e => Throw e
  end.

Record AudioBuffer : Type := {
  numberOfChannels : nat;
  frames : nat;                       (* [buffer.length] *)
  sampleRate : positive;
  channelData : list (list Q)
}.

(** [buffer.duration], in seconds. *)
Definition duration (b : AudioBuffer) : Q :=
  Qmake (Z.of_nat (frames b)) (sampleRate b).

(** [new Int16Array(data.buffer)]: little-endian pairs; a [RangeError]
    when the byte length is odd. *)
Fixpoint int16_pairs (data : list N) : option (list Z) :=
  match data with
  | [] => Some []
  | lo :: hi :: rest =>
      match int16_pairs rest with
      | Some l =>
          let u := Z.of_N lo + 256 * Z.of_N hi in
          Some ((if u <? 32768 then u else u - 65536) :: l)
      | None => None
      end
  | [_] => None
  end.

Definition new_Int16Array (data : list N) : completion (list Z) :=
  match int16_pairs data with
  | Some l => Normal l
  | None => Throw RangeError
  end.

(** [ctx.createBuffer(numChannels, length, sampleRate)]: a
    [NotSupportedError] when there is no channel or no frame. *)
Definition createBuffer (numChannels frameCount : nat) (rate : positive)
  : completion AudioBuffer :=
  if (numChannels =? 0)%nat || (frameCount =? 0)%nat then Throw NotSupportedError
  else Normal {| numberOfChannels := numChannels; frames := frameCount;
                 sampleRate := rate;
                 channelData := repeat (repeat 0%Q frameCount) numChannels |}.

Definition decodeAudioData (data : list N) (rate : positive) (numChannels : nat)
  : completion AudioBuffer :=
  match new_Int16Array data with
  | Throw e => Throw e
  | Normal dataInt16 =>
      let frameCount := (List.length dataInt16 / numChannels)%nat in
      match createBuffer numChannels frameCount rate with
      | Throw e => Throw e
      | Normal buffer =>
          Normal {| numberOfChannels := numberOfChannels buffer;
                    frames := frames buffer;
                    sampleRate := sampleRate buffer;
                    channelData :=
                      map (fun channel =>
                             map (fun i =>
                                    Qmake (nth (i * numChannels + channel) dataInt16 0) 32768)
                                 (seq 0 frameCount))
                          (seq 0 numChannels) |}
      end
  end.

Record Blob : Type := { data : jsstring; mimeType : jsstring }.

(** The conversion of a number to a 16-bit element: truncation, then
    wrap-around. *)
Definition ToInt16 (x : Q) : Z :=
  let n := Z.quot (Qnum x) (Zpos (Qden x)) in
  let u := n mod 65536 in
  if u <? 32768 then u else u - 65536.

Definition int16_bytes (v : Z) : list N :=
  let u := v mod 65536 in
  [Z.to_N (u mod 256); Z.to_N (u / 256)].

(** [createBlob(data)] for a frame of samples. *)
Definition createBlob (samples : list Q) : completion Blob :=
  let int16 := map (fun x => ToInt16 (x * 32768)%Q) samples in
  let bytes := flat_map int16_bytes int16 in
  match Base64.btoa bytes with
  | Normal b => Normal {| data := b; mimeType := js "audio/pcm;rate=16000" |}
  | Throw e => Throw e
  end.

(* ===================================================================== *)
(** ** [LiveClient]                                                       *)
(* ===================================================================== *)

(** A field of the client holds the state of the object it refers to;
    the client is the only holder of these references.  The calls made
    to the platform and to the transcription callback are recorded in
    order, next to the state. *)

Record AudioContext : Type := { contextRate : positive; contextClosed : bool }.

(** A [MediaStream]: for each track, whether it is still live. *)
Record MediaStream : Type := { tracksLive : list bool }.

(** The session object of the SDK. *)
Inductive Session : Type := LiveSession.

(** The promise returned by [ai.live.connect]; a pending promise holds
    the reactions registered with [then], here the blobs to send. *)
Inductive Promise : Type :=
  | Pending (reactions : list Blob)
  | Fulfilled (session : Session)
  | Rejected (reason : exn).

Record SourceNode : Type := { sourceId : nat; sourceBuffer : AudioBuffer }.

Record ScriptProcessorNode : Type := { bufferSize : Z; onaudioprocessSet : bool }.

Record LiveClient : Type := {
  sessionPromise : option Promise;
  inputAudioContext : option AudioContext;
  outputAudioContext : option AudioContext;
  nextStartTime : Q;
  sources : list SourceNode;          (* a [Set], in insertion order *)
  stream : option MediaStream;
  processor : option ScriptProcessorNode;
  inputSource : option unit;
  allocated : nat                     (* identities of source nodes handed out *)
}.

(** The client after its constructor. *)
Definition new_LiveClient : LiveClient :=
  {| sessionPromise := None; inputAudioContext := None; outputAudioContext := None;
     nextStartTime := 0%Q; sources := []; stream := None; processor := None;
     inputSource := None; allocated := O |}.

Definition set_sessionPromise (p : option Promise) (c : LiveClient) : LiveClient :=
  {| sessionPromise := p; inputAudioContext := inputAudioContext c;
     outputAudioContext := outputAudioContext c; nextStartTime := nextStartTime c;
     sources := sources c; stream := stream c; processor := processor c;
     inputSource := inputSource c; allocated := allocated c |}.

Definition set_inputAudioContext (x : option AudioContext) (c : LiveClient) : LiveClient :=
  {| sessionPromise := sessionPromise c; inputAudioContext := x;
     outputAudioContext := outputAudioContext c; nextStartTime := nextStartTime c;
     sources := sources c; stream := stream c; processor := processor c;
     inputSource := inputSource c; allocated := allocated c |}.

Definition set_outputAudioContext (x : option AudioContext) (c : LiveClient) : LiveClient :=
  {| sessionPromise := sessionPromise c; inputAudioContext := inputAudioContext c;
     outputAudioContext := x; nextStartTime := nextStartTime c;
     sources := sources c; stream := stream c; processor := processor c;
     inputSource := inputSource c; allocated := allocated c |}.

Definition set_nextStartTime (t : Q) (c : LiveClient) : LiveClient :=
  {| sessionPromise := sessionPromise c; inputAudioContext := inputAudioContext c;
     outputAudioContext := outputAudioContext c; nextStartTime := t;
     sources := sources c; stream := stream c; processor := processor c;
     inputSource := inputSource c; allocated := allocated c |}.

Definition set_sources (l : list SourceNode) (c : LiveClient) : LiveClient :=
  {| sessionPromise := sessionPromise c; inputAudioContext := inputAudioContext c;
     outputAudioContext := outputAudioContext c; nextStartTime := nextStartTime c;
     sources := l; stream := stream c; processor := processor c;
     inputSource := inputSource c; allocated := allocated c |}.

Definition set_stream (x : option MediaStream) (c : LiveClient) : LiveClient :=
  {| sessionPromise := sessionPromise c; inputAudioContext := inputAudioContext c;
     outputAudioContext := outputAudioContext c; nextStartTime := nextStartTime c;
     sources := sources c; stream := x; processor := processor c;
     inputSource := inputSource c; allocated := allocated c |}.

Definition set_processor (x : option ScriptProcessorNode) (c : LiveClient) : LiveClient :=
  {| sessionPromise := sessionPromise c; inputAudioContext := inputAudioContext c;
     outputAudioContext := outputAudioContext c; nextStartTime := nextStartTime c;
     sources := sources c; stream := stream c; processor := x;
     inputSource := inputSource c; allocated := allocated c |}.

Definition set_inputSource (x : option unit) (c : LiveClient) : LiveClient :=
  {| sessionPromise := sessionPromise c; inputAudioContext := inputAudioContext c;
     outputAudioContext := outputAudioContext c; nextStartTime := nextStartTime c;
     sources := sources c; stream := stream c; processor := processor c;
     inputSource := x; allocated := allocated c |}.

Definition set_allocated (n : nat) (c : LiveClient) : LiveClient :=
  {| sessionPromise := sessionPromise c; inputAudioContext := inputAudioContext c;
     outputAudioContext := outputAudioContext c; nextStartTime := nextStartTime c;
     sources := sources c; stream := stream c; processor := processor c;
     inputSource := inputSource c; allocated := n |}.

(** The calls that leave the client. *)
Inductive call : Type :=
  | NewAudioContext (rate : positive)
  | GetUserMedia
  | LiveConnect
  | SendRealtimeInput (media : Blob)
  | SourceStart (id : nat) (when : Q) (length : Q)
  | SourceStop (id : nat)
  | SessionClose
  | TrackStop (index : nat)
  | ContextClose (rate : positive)
  | OnTranscription (inText outText : jsstring).

(** A method of the client: it reads and writes the fields, records its
    calls, and completes or throws.  What was written and called before
    a throw stays. *)
Definition M (A : Type) : Type := LiveClient -> completion A * LiveClient * list call.

Definition mret {A} (a : A) : M A := fun c => (Normal a, c, []).

Definition mbind {A B} (m : M A) (k : A -> M B) : M B :=
  fun c =>
    match m c with
    | (Normal a, c1, l1) =>
        match k a c1 with
        | (r, c2, l2) => (r, c2, l1 ++ l2)
        end
    | (Throw e, c1, l1) => (Throw e, c1, l1)
    end.

Definition this : M LiveClient := fun c => (Normal c, c, []).
Definition assign (f : LiveClient -> LiveClient) : M unit := fun c => (Normal tt, f c, []).
Definition platform (x : call) : M unit := fun c => (Normal tt, c, [x]).
Definition platform_each (l : list call) : M unit := fun c => (Normal tt, c, l).
Definition lift {A} (r : completion A) : M A := fun c => (r, c, []).

Declare Scope live_scope.
Delimit Scope live_scope with live.
Notation "x <- m ;; k" := (mbind m (fun x => k))
  (at level 61, m at next level, right associativity) : live_scope.
Notation "m ;; k" := (mbind m (fun _ => k))
  (at level 61, right associativity) : live_scope.

Definition result {A} (r : completion A * LiveClient * list call) : completion A :=
  fst (fst r).
Definition client {A} (r : completion A * LiveClient * list call) : LiveClient :=
  snd (fst r).
Definition calls {A} (r : completion A * LiveClient * list call) : list call :=
  snd r.

(** An inbound message, by the three paths the handler reads:
    [serverContent?.modelTurn?.parts?.[0]?.inlineData?.data],
    [serverContent?.inputTranscription] and its [text],
    [serverContent?.outputTranscription] and its [text]. *)
Record LiveServerMessage : Type := {
  inlineData : option jsstring;
  inputTranscription : option (option jsstring);
  outputTranscription : option (option jsstring)
}.

(** [t.text || ''] under [if (t)]. *)
Definition transcription_text (t : option (option jsstring)) : jsstring :=
  match t with
  | Some (Some text) => text
  | _ => []
  end.

Definition truthy (s : jsstring) : bool :=
  match s with [] => false | _ :: _ => true end.

Local Open Scope live_scope.

(** The capture callback installed by [connect]. *)
Definition onaudioprocess (inputData : list Q) : M unit :=
  pcmBlob <- lift (createBlob inputData) ;;
  c <- this ;;
  match sessionPromise c with
  | Some (Pending reactions) =>
      assign (set_sessionPromise (Some (Pending (reactions ++ [pcmBlob]))))
  | Some (Fulfilled session) => platform (SendRealtimeInput pcmBlob)
  | Some (Rejected _) => mret tt
  | None => mret tt
  end.

(** The promise of [ai.live.connect] settles: fulfilled, the reactions
    run in the order of their registration; rejected, they never run. *)
Definition settle (r : completion Session) : M unit :=
  c <- this ;;
  match sessionPromise c, r with
  | Some (Pending reactions), Normal session =>
      assign (set_sessionPromise (Some (Fulfilled session))) ;;
      platform_each (map SendRealtimeInput reactions)
  | Some (Pending reactions), Throw e =>
      assign (set_sessionPromise (Some (Rejected e)))
  | _, _ => mret tt
  end.

(** [async connect()].  [newContext] is the outcome of the
    [AudioContext] constructor at a sample rate, [userMedia] the
    outcome of the awaited [getUserMedia]. *)
Definition connect (newContext : positive -> completion AudioContext)
                   (userMedia : completion MediaStream) : M unit :=
  platform (NewAudioContext 16000) ;;
  ictx <- lift (newContext 16000%positive) ;;
  assign (set_inputAudioContext (Some ictx)) ;;
  platform (NewAudioContext 24000) ;;
  octx <- lift (newContext 24000%positive) ;;
  assign (set_outputAudioContext (Some octx)) ;;
  platform GetUserMedia ;;
  ms <- lift userMedia ;;
  assign (set_stream (Some ms)) ;;
  (* the nodes of the capture graph; connecting them changes no field *)
  assign (set_inputSource (Some tt)) ;;
  assign (set_processor (Some {| bufferSize := 4096; onaudioprocessSet := false |})) ;;
  assign (set_processor (Some {| bufferSize := 4096; onaudioprocessSet := true |})) ;;
  platform LiveConnect ;;
  assign (set_sessionPromise (Some (Pending []))).

(** The audio part of [onmessage], inside
    [if (base64Audio && this.outputAudioContext)], in its two halves:
    up to the [await], and after it.  [currentTime] is the clock of the
    output context. *)
Definition play_begin (currentTime : Q) : M unit :=
  c <- this ;;
  assign (set_nextStartTime (Qmax (nextStartTime c) currentTime)).

Definition play_finish (base64Audio : jsstring) : M unit :=
  bytes <- lift (decode base64Audio) ;;
  audioBuffer <- lift (decodeAudioData bytes 24000 1) ;;
  c <- this ;;
  let source := {| sourceId := allocated c; sourceBuffer := audioBuffer |} in
  assign (set_allocated (S (allocated c))) ;;
  platform (SourceStart (sourceId source) (nextStartTime c) (duration audioBuffer)) ;;
  assign (set_nextStartTime (nextStartTime c + duration audioBuffer)%Q) ;;
  assign (set_sources (sources c ++ [source])).

Definition play (currentTime : Q) (base64Audio : jsstring) : M unit :=
  play_begin currentTime ;;
  play_finish base64Audio.

(** The transcription part of [onmessage]. *)
Definition transcribe (message : LiveServerMessage) : M unit :=
  let inText := transcription_text (inputTranscription message) in
  let outText := transcription_text (outputTranscription message) in
  if truthy inText || truthy outText
  then platform (OnTranscription inText outText)
  else mret tt.

(** [onmessage]. *)
Definition onmessage (currentTime : Q) (message : LiveServerMessage) : M unit :=
  c <- this ;;
  match inlineData message, outputAudioContext c with
  | Some base64Audio, Some _ =>
      if truthy base64Audio then play currentTime base64Audio else mret tt
  | _, _ => mret tt
  end ;;
  transcribe message.

(** The listener of the [ended] event of a source. *)
Definition onended (id : nat) : M unit :=
  c <- this ;;
  assign (set_sources (filter (fun s => negb (Nat.eqb (sourceId s) id)) (sources c))).

(** [await this.sessionPromise] in [disconnect]: a pending promise
    settles as [settled] says, and the reactions registered before
    the [await] run first.  A promise that never settles is left out:
    [disconnect] would wait on it for ever. *)
Definition await_session (settled : completion Session) (p : Promise) : M Session :=
  match p with
  | Fulfilled session => mret session
  | Rejected e => lift (Throw e)
  | Pending _ =>
      settle settled ;;
      lift settled
  end.

Definition close_context (ctx : AudioContext) : AudioContext :=
  {| contextRate := contextRate ctx; contextClosed := true |}.

Definition close_session (settled : completion Session) : M unit :=
  c <- this ;;
  match sessionPromise c with
  | Some p =>
      session <- await_session settled p ;;
      platform SessionClose ;;
      assign (set_sessionPromise None)
  | None => mret tt
  end.

Definition stop_tracks : M unit :=
  c <- this ;;
  match stream c with
  | Some ms =>
      platform_each (map TrackStop (seq 0 (List.length (tracksLive ms)))) ;;
      assign (set_stream (Some {| tracksLive := map (fun _ => false) (tracksLive ms) |}))
  | None => mret tt
  end.

Definition close_input : M unit :=
  c <- this ;;
  match inputAudioContext c with
  | Some ctx =>
      platform (ContextClose (contextRate ctx)) ;;
      assign (set_inputAudioContext (Some (close_context ctx)))
  | None => mret tt
  end.

Definition close_output : M unit :=
  c <- this ;;
  match outputAudioContext c with
  | Some ctx =>
      platform (ContextClose (contextRate ctx)) ;;
      assign (set_outputAudioContext (Some (close_context ctx)))
  | None => mret tt
  end.

Definition stop_sources : M unit :=
  c <- this ;;
  platform_each (map (fun s => SourceStop (sourceId s)) (sources c)) ;;
  assign (set_sources []).

(** [async disconnect()]: the five statements of its body, in order. *)
Definition disconnect (settled : completion Session) : M unit :=
  close_session settled ;;
  stop_tracks ;;
  close_input ;;
  close_output ;;
  stop_sources.

(** A run of message events, each handled to its end before the next;
    a handler that throws leaves the client as it was at the throw. *)
Fixpoint handle_messages (evs : list (Q * LiveServerMessage)) (c : LiveClient)
  : LiveClient * list call :=
  match evs with
  | [] => (c, [])
  | (t, m) :: rest =>
      let r := onmessage t m c in
      let (c', l) := handle_messages rest (client r) in
      (c', calls r ++ l)
  end.

Local Close Scope live_scope.


(* ===================================================================== *)
(** ** Reading the record of calls                                        *)
(* ===================================================================== *)

(** The calls that give a resource back. *)
Definition is_release (x : call) : bool :=
  match x with
  | SessionClose | TrackStop _ | ContextClose _ | SourceStop _ => true
  | _ => false
  end.

(** The arguments of the calls of the transcription callback. *)
Fixpoint transcriptions (l : list call) : list (jsstring * jsstring) :=
  match l with
  | [] => []
  | OnTranscription i o :: l' => (i, o) :: transcriptions l'
  | _ :: l' => transcriptions l'
  end.

(** The buffers started: start time and duration. *)
Fixpoint scheduled (l : list call) : list (Q * Q) :=
  match l with
  | [] => []
  | SourceStart _ when d :: l' => (when, d) :: scheduled l'
  | _ :: l' => scheduled l'
  end.

(** The duration of the buffer that the chunk of a message decodes to,
    if it has a chunk and the chunk decodes. *)
Definition chunk_duration (message : LiveServerMessage) : option Q :=
  match inlineData message with
  | Some base64Audio =>
      if truthy base64Audio then
        match decode base64Audio with
        | Normal bytes =>
            match decodeAudioData bytes 24000 1 with
            | Normal audioBuffer => Some (duration audioBuffer)
            | Throw _ => None
            end
        | Throw _ => None
        end
      else None
  | None => None
  end.



(** Everything the client acquired is given back. *)
Definition released (c : LiveClient) : Prop :=
  sessionPromise c = None
  /\ (forall ms, stream c = Some ms -> Forall (fun live => live = false) (tracksLive ms))
  /\ (forall ctx, inputAudioContext c = Some ctx -> contextClosed ctx = true)
  /\ (forall ctx, outputAudioContext c = Some ctx -> contextClosed ctx = true)
  /\ sources c = [].

(** A platform on which every acquisition succeeds. *)
Definition fresh_context (rate : positive) : completion AudioContext :=
  Normal {| contextRate := rate; contextClosed := false |}.

Definition microphone : completion MediaStream :=
  Normal {| tracksLive := [true] |}.


(** A message has no chunk, or a chunk that decodes. *)
Definition chunk_ok (message : LiveServerMessage) : Prop :=
  forall base64Audio,
    inlineData message = Some base64Audio -> truthy base64Audio = true ->
    chunk_duration message <> None.

(** For the examples: a message that carries a chunk and nothing else,
    and the client after a [connect] on which every step succeeds. *)
Definition chunk_message (base64Audio : string) : LiveServerMessage :=
  {| inlineData := Some (js base64Audio);
     inputTranscription := None; outputTranscription := None |}.

Definition connected : LiveClient :=
  client (connect fresh_context microphone new_LiveClient).
(* ===================================================================== *)
(** ** The PCM codec, end to end                                          *)
(* ===================================================================== *)

(** The 16-bit value that [createBlob] stores for a sample. *)
Definition pcm_int16 (x : Q) : Z := ToInt16 (x * 32768)%Q.

(** The bytes that [createBlob] hands to [btoa] for a frame. *)
Definition pcm_bytes (samples : list Q) : list N :=
  flat_map int16_bytes (map pcm_int16 samples).

(** The blob that [createBlob] makes of a frame. *)
Definition pcm_blob (samples : list Q) : Blob :=
  {| data := Base64.chars_of_bytes (pcm_bytes samples);
     mimeType := js "audio/pcm;rate=16000" |}.

(** The sample that [decodeAudioData] makes of a 16-bit value. *)
Definition pcm_sample (v : Z) : Q := Qmake v 32768.

(** The characters of [btoa] before the padding. *)
Fixpoint unpadded_chars (l : list N) : jsstring :=
  match l with
  | a :: b :: c :: rest =>
      let n := ((a * 256 + b) * 256 + c)%N in
      Base64.char_of (n / 262144) :: Base64.char_of (N.modulo (n / 4096) 64)
      :: Base64.char_of (N.modulo (n / 64) 64) :: Base64.char_of (N.modulo n 64)
      :: unpadded_chars rest
  | [a; b] =>
      let n := ((a * 256 + b) * 4)%N in
      [Base64.char_of (n / 4096); Base64.char_of (N.modulo (n / 64) 64);
       Base64.char_of (N.modulo n 64)]
  | [a] =>
      let n := (a * 16)%N in
      [Base64.char_of (n / 64); Base64.char_of (N.modulo n 64)]
  | [] => []
  end.

Definition padding (l : list N) : jsstring :=
  match Nat.modulo (List.length l) 3 with
  | 1%nat => [61%N; 61%N]
  | 2%nat => [61%N]
  | _ => []
  end.

(* ===================================================================== *)
(** ** Runs of the client, and its caller                                 *)
(* ===================================================================== *)

(** A run of capture callbacks, one frame after the other. *)
Fixpoint capture (frames : list (list Q)) (c : LiveClient) : LiveClient * list call :=
  match frames with
  | [] => (c, [])
  | inputData :: rest =>
      let r := onaudioprocess inputData c in
      let (c', l) := capture rest (client r) in
      (c', calls r ++ l)
  end.

(** What can happen to a client: its two methods, the three callbacks
    it installs, and the settling of the promise it holds. *)
Inductive action : Type :=
  | DoConnect (newContext : positive -> completion AudioContext)
              (userMedia : completion MediaStream)
  | DoSettle (r : completion Session)
  | DoCapture (inputData : list Q)
  | DoMessage (currentTime : Q) (message : LiveServerMessage)
  | DoEnded (id : nat)
  | DoDisconnect (settled : completion Session).

Definition perform (a : action) : M unit :=
  match a with
  | DoConnect newContext userMedia => connect newContext userMedia
  | DoSettle r => settle r
  | DoCapture inputData => onaudioprocess inputData
  | DoMessage currentTime message => onmessage currentTime message
  | DoEnded id => onended id
  | DoDisconnect settled => disconnect settled
  end.

Fixpoint perform_all (l : list action) (c : LiveClient) : LiveClient * list call :=
  match l with
  | [] => (c, [])
  | a :: rest =>
      let r := perform a c in
      let (c', k) := perform_all rest (client r) in
      (c', calls r ++ k)
  end.

Definition is_message (a : action) : bool :=
  match a with DoMessage _ _ => true | _ => false end.

(** The state of the [Assistant] component that [toggleLive] reads and
    writes; [liveClient] holds the client object, as it is now. *)
Record Assistant : Type := {
  isLiveConnected : bool;
  liveClient : option LiveClient;
  liveTranscript : option (jsstring * jsstring)
}.

Inductive notice : Type :=
  | LoggedError (e : exn)       (* [console.error("Connection failed", e)] *)
  | Alert (message : jsstring).

Definition CONNECT_ALERT : jsstring :=
  js "Could not connect to Live Voice. Please check microphone permissions.".

(** [toggleLive] of the assistant: the outcome of the handler, the state
    after it, the calls made through the client, and what the user is
    told. *)
Definition toggleLive (newContext : positive -> completion AudioContext)
                      (userMedia : completion MediaStream)
                      (settled : completion Session) (a : Assistant)
  : completion unit * Assistant * list call * list notice :=
  if isLiveConnected a then
    match liveClient a with
    | Some c =>
        let r := disconnect settled c in
        match result r with
        | Normal _ =>
            (Normal tt,
             {| isLiveConnected := false; liveClient := None; liveTranscript := None |},
             calls r, [])
        | Throw e =>
            (Throw e,
             {| isLiveConnected := isLiveConnected a; liveClient := Some (client r);
                liveTranscript := liveTranscript a |},
             calls r, [])
        end
    | None =>
        (Normal tt,
         {| isLiveConnected := false; liveClient := None; liveTranscript := None |},
         [], [])
    end
  else
    let r := connect newContext userMedia new_LiveClient in
    match result r with
    | Normal _ =>
        (Normal tt,
         {| isLiveConnected := true; liveClient := Some (client r);
            liveTranscript := liveTranscript a |},
         calls r, [])
    | Throw e =>
        (Normal tt,
         {| isLiveConnected := false; liveClient := liveClient a;
            liveTranscript := liveTranscript a |},
         calls r, [LoggedError e; Alert CONNECT_ALERT])
    end.

(** The client of the assistant after something happened to it. *)
Definition with_client (f : LiveClient -> LiveClient) (a : Assistant) : Assistant :=
  {| isLiveConnected := isLiveConnected a;
     liveClient := option_map f (liveClient a);
     liveTranscript := liveTranscript a |}.

Fixpoint toggle_times (n : nat) (newContext : positive -> completion AudioContext)
                      (userMedia : completion MediaStream)
                      (settled : completion Session) (a : Assistant) : Assistant :=
  match n with
  | O => a
  | S k =>
      toggle_times k newContext userMedia settled
        (snd (fst (fst (toggleLive newContext userMedia settled a))))
  end.

(* ===================================================================== *)
(** ** The requests to the model                                          *)
(* ===================================================================== *)

(** What an [async] function of the service can be rejected with: an
    exception of the platform, a [TypeError] of the language, an
    [Error] made with a message, or the failure of a call of the model. *)
Inductive error : Type :=
  | Raised (e : exn)
  | TypeError
  | Error (message : jsstring)
  | ApiError (status : Z).

Inductive settlement (A : Type) : Type :=
  | Resolved (a : A)
  | RejectedWith (e : error).
Arguments Resolved {A} a.
Arguments RejectedWith {A} e.

(** What a request leaves behind: the events of the parser, the errors
    it logs with [console.error] under a label, and the calls of
    [onProgress]. *)
Inductive entry : Type :=
  | ParserEvent (ev : event)
  | ErrorLogged (label : jsstring) (e : error)
  | Progress (status : jsstring).

Definition async (A : Type) : Type := (settlement A * list entry)%type.

Definition aret {A} (a : A) : async A := (Resolved a, []).
Definition athrow {A} (e : error) : async A := (RejectedWith e, []).
Definition awaiting {A} (s : settlement A) : async A := (s, []).
Definition note (x : entry) : async unit := (Resolved tt, [x]).

Definition abind {A B} (m : async A) (k : A -> async B) : async B :=
  match m with
  | (Resolved a, l) => let (r, l') := k a in (r, l ++ l')
  | (RejectedWith e, l) => (RejectedWith e, l)
  end.

Definition attempt {A} (body : async A) (handler : error -> async A) : async A :=
  match body with
  | (Resolved a, l) => (Resolved a, l)
  | (RejectedWith e, l) => let (r, l') := handler e in (r, l ++ l')
  end.

Declare Scope async_scope.
Delimit Scope async_scope with async.
Notation "x <- m ;; k" := (abind m (fun x => k))
  (at level 61, m at next level, right associativity) : async_scope.
Notation "m ;; k" := (abind m (fun _ => k))
  (at level 61, right associativity) : async_scope.

(** The parts of a reply of [generateContent] that the service reads:
    [response.text],
    [response.candidates?.[0]?.content?.parts?.[0]?.inlineData?.data] and
    [response.candidates?.[0]?.groundingMetadata?.groundingChunks]. *)
Record GenerateContentResponse : Type := {
  responseText : option jsstring;
  responseAudio : option jsstring;
  responseChunks : option value
}.

(** Whether a value counts as true. *)
Definition truthy_value (v : value) : bool :=
  match v with
  | JNull => false
  | JBool b => b
  | JNumber q => negb (Qeq_bool q 0)
  | JString s => truthy s
  | JArray _ | JObject _ => true
  end.

Fixpoint get_own (key : jsstring) (props : list (jsstring * value)) : option value :=
  match props with
  | [] => None
  | (k, v) :: rest => if jsstring_eqb k key then Some v else get_own key rest
  end.

(** [v.key] and [v?.key], for a key that no prototype defines and that
    is no index: only an object can have it; [None] is [undefined]. *)
Definition get_property (v : value) (key : jsstring) : option value :=
  match v with
  | JObject props => get_own key props
  | _ => None
  end.


(** [Array.isArray(v)] *)
Definition isArray (v : value) : bool :=
  match v with JArray _ => true | _ => false end.

Fixpoint indexed {A : Type} (i : nat) (l : list A) : list (jsstring * A) :=
  match l with
  | [] => []
  | x :: rest => (JSONRef.digits (N.of_nat i), x) :: indexed (S i) rest
  end.

(** The own enumerable properties of a value, in order: what a spread
    copies and what [Object.entries] lists. *)
Definition own_enumerable (v : value) : list (jsstring * value) :=
  match v with
  | JObject props => props
  | JArray xs => indexed 0 xs
  | JString s => indexed 0 (map (fun c => JString [c]) s)
  | _ => []
  end.

(** [Object.entries(v)]: a [TypeError] for [null]. *)
Definition Object_entries (v : value) : settlement (list (jsstring * value)) :=
  match v with
  | JNull => RejectedWith TypeError
  | _ => Resolved (own_enumerable v)
  end.

(** [{ ...item, isPrioritized: false }] *)
Definition spread_unprioritized (item : value) : value :=
  JObject (JSONRef.set_prop (js "isPrioritized") (JBool false) (own_enumerable item)).

(** A [FridgeItem] as the service makes it. *)
Definition fridge_item (name category : jsstring) : value :=
  JObject [(js "name", JString name); (js "category", JString category);
           (js "isPrioritized", JBool false)].

(** [isFridgeItem(item)]: an object, or an array, that is not [null]
    and has both keys; an array has neither. *)
Definition isFridgeItem (item : value) : bool :=
  match item with
  | JObject props =>
      match get_own (js "name") props, get_own (js "category") props with
      | Some _, Some _ => true
      | _, _ => false
      end
  | _ => false
  end.

Definition CATEGORIES : list jsstring :=
  [js "Produce"; js "Protein"; js "Dairy"; js "Bakery"; js "Pantry"; js "Frozen";
   js "Beverages"; js "Other"].

Section Requests.

Local Open Scope async_scope.

(** [JSON.parse], and the two case conversions of strings, built-ins of
    the platform. *)
Variable JSON_parse : jsstring -> completion value.
Variable toLowerCase : jsstring -> jsstring.
Variable toUpperCase : jsstring -> jsstring.

(** [parseModelJSON(response.text)]: a text that is absent is falsy, as
    the empty text is. *)
Definition parse_reply (text : option jsstring) : async value :=
  match text with
  | None => aret JNull
  | Some s =>
      match parseModelJSON JSON_parse s with
      | (Normal v, evs) => (Resolved v, map ParserEvent evs)
      | (Throw e, evs) => (RejectedWith (Raised e), map ParserEvent evs)
      end
  end.

Definition log_error (label : string) (e : error) : async unit :=
  note (ErrorLogged (js label) e).




Definition calculateWasteScore (generateContent : settlement GenerateContentResponse)
  : async value :=
  attempt
    (response <- awaiting generateContent ;;
     data <- parse_reply (responseText response) ;;
     aret data)
    (fun e =>
       log_error "Waste Score Error" e ;;
       aret JNull).



(** [generateSpeech]: the bytes of the audio of the reply. *)
Definition generateSpeech (generateContent : settlement GenerateContentResponse)
  : async (list N) :=
  attempt
    (response <- awaiting generateContent ;;
     match responseAudio response with
     | Some (c :: s) =>
         match Base64.atob (c :: s) with
         | Normal binaryString => aret (map (fun c => N.modulo c 256) binaryString)
         | Throw e => athrow (Raised e)
         end
     | _ => athrow (Error (js "No audio data returned"))
     end)
    (fun error =>
       log_error "TTS Error:" error ;;
       athrow error).

(** The category that [analyzeFridgeImage] gives to the items under a
    key of [categories]. *)
Definition category_of (key : jsstring) : jsstring :=
  let lowerKey := toLowerCase key in
  if jsstring_eqb lowerKey (js "produce") then js "Produce"
  else if jsstring_eqb lowerKey (js "protein") then js "Protein"
  else if jsstring_eqb lowerKey (js "dairy") then js "Dairy"
  else if jsstring_eqb lowerKey (js "bakery") then js "Bakery"
  else if jsstring_eqb lowerKey (js "pantry") then js "Pantry"
  else if jsstring_eqb lowerKey (js "frozen") then js "Frozen"
  else if jsstring_eqb lowerKey (js "beverages") then js "Beverages"
  else js "Other".

(** [name.charAt(0).toUpperCase() + name.slice(1)]; a [name] that is no
    string has no [charAt] to call. *)
Definition cleanName (name : value) : settlement jsstring :=
  match name with
  | JString s => Resolved (toUpperCase (firstn 1 s) ++ skipn 1 s)
  | _ => RejectedWith TypeError
  end.

(** [items.forEach(name => mappedItems.push(...))] *)
Fixpoint push_items (category : jsstring) (items mappedItems : list value)
  : settlement (list value) :=
  match items with
  | [] => Resolved mappedItems
  | name :: rest =>
      match cleanName name with
      | Resolved n => push_items category rest (mappedItems ++ [fridge_item n category])
      | RejectedWith e => RejectedWith e
      end
  end.

(** [for (const [key, items] of Object.entries(data.categories))] *)
Fixpoint map_categories (entries : list (jsstring * value)) (mappedItems : list value)
  : settlement (list value) :=
  match entries with
  | [] => Resolved mappedItems
  | (key, items) :: rest =>
      match items with
      | JArray names =>
          match push_items (category_of key) names mappedItems with
          | Resolved m => map_categories rest m
          | RejectedWith e => RejectedWith e
          end
      | _ => map_categories rest mappedItems
      end
  end.

Definition progress (onProgress : bool) (status : string) : async unit :=
  if onProgress then note (Progress (js status)) else aret tt.

(** [analyzeFridgeImage].  [onProgress] says whether the callback is
    given, [resized] is the outcome of [resizeAndCompressImage]. *)
Definition analyzeFridgeImage (onProgress : bool) (resized : settlement jsstring)
                              (generateContent : settlement GenerateContentResponse)
  : async (list value) :=
  attempt
    (progress onProgress "Optimizing image..." ;;
     base64Data <- awaiting resized ;;
     progress onProgress "Analyzing with Gemini Flash..." ;;
     response <- awaiting generateContent ;;
     data <- parse_reply (responseText response) ;;
     if negb (truthy_value data) then aret []
     else
       match get_property data (js "categories") with
       | Some categories =>
           if truthy_value categories then
             entries <- awaiting (Object_entries categories) ;;
             awaiting (map_categories entries [])
           else
             match data with
             | JArray items => aret (map spread_unprioritized items)
             | _ => aret []
             end
       | None =>
           match data with
           | JArray items => aret (map spread_unprioritized items)
           | _ => aret []
           end
       end)
    (fun error =>
       log_error "Error analyzing fridge:" error ;;
       athrow error).

End Requests.

(** The errors logged by a request. *)
Fixpoint errors_logged (l : list entry) : list (jsstring * error) :=
  match l with
  | [] => []
  | ErrorLogged label e :: l' => (label, e) :: errors_logged l'
  | _ :: l' => errors_logged l'
  end.

(** The names listed under the keys of [categories] whose value is an
    array. *)
Fixpoint listed_names (entries : list (jsstring * value)) : list value :=
  match entries with
  | [] => []
  | (_, JArray names) :: rest => names ++ listed_names rest
  | _ :: rest => listed_names rest
  end.


(** A name as a string. *)
Definition is_string (v : value) : Prop :=
  match v with JString _ => True | _ => False end.

(** An item made of a listed name: the name with its first code unit in
    upper case, under some category. *)
Definition item_of_name (toUpperCase : jsstring -> jsstring) (item name : value) : Prop :=
  exists s category,
    name = JString s
    /\ In category CATEGORIES
    /\ item = fridge_item (toUpperCase (firstn 1 s) ++ skipn 1 s) category.

(** For the examples: the case conversions on the letters of ASCII,
    where the built-ins agree with them. *)
Definition ascii_lower (s : jsstring) : jsstring :=
  map (fun c => if ((65 <=? c) && (c <=? 90))%N then (c + 32)%N else c) s.

Definition ascii_upper (s : jsstring) : jsstring :=
  map (fun c => if ((97 <=? c) && (c <=? 122))%N then (c - 32)%N else c) s.

Definition reply (text : string) : settlement GenerateContentResponse :=
  Resolved {| responseText := Some (jsq text); responseAudio := None;
              responseChunks := None |}.

(* ===================================================================== *)
(** ** [fileToGenerativePart]                                             *)
(* ===================================================================== *)

(** [s.split(',')]: the pieces between the commas; [current] holds the
    piece being read, last code unit first. *)
Fixpoint split_comma (s current : jsstring) : list jsstring :=
  match s with
  | [] => [rev current]
  | c :: s' =>
      if N.eqb c 44 then rev current :: split_comma s' []
      else split_comma s' (c :: current)
  end.

(** The part that [fileToGenerativePart] resolves to: [data] is absent
    when the split has no second piece. *)
Record InlineData : Type := { partData : option jsstring; partMimeType : jsstring }.

(** How [readAsDataURL] ends: [loadend] with [reader.result], or the
    [error] event. *)
Inductive file_read : Type :=
  | Loaded (result : jsstring)
  | ReadFailed.

(** The promise of [fileToGenerativePart]; it is rejected with the
    reader's [error] event. *)
Inductive part_promise : Type :=
  | PartResolved (inlineData : InlineData)
  | PartRejected.

(** [fileToGenerativePart(file)]: [fileType] is [file.type].  After an
    [error] event the promise is rejected already when [loadend] comes. *)
Definition fileToGenerativePart (fileType : jsstring) (read : file_read)
  : part_promise :=
  match read with
  | Loaded base64String =>
      PartResolved {| partData := nth_error (split_comma base64String []) 1;
                      partMimeType := fileType |}
  | ReadFailed => PartRejected
  end.

(* ===================================================================== *)
(** ** Shapes of texts                                                    *)
(* ===================================================================== *)

Definition BACKTICK : code_unit := 96%N.

Definition COMMA : code_unit := 44%N.

(** A text that is empty or begins with something else than white space. *)
Definition no_leading_space (s : jsstring) : Prop :=
  match s with
  | [] => True
  | c :: _ => is_js_whitespace c = false
  end.

Definition no_trailing_space (s : jsstring) : Prop := no_leading_space (rev s).
(* ===================================================================== *)
(** ** Strings: basic facts                                               *)
(* ===================================================================== *)

Lemma indexOf_from_range c s : forall i,
  indexOf_from c i s = -1 \/ i <= indexOf_from c i s.
Proof.
  induction s as [|x s IH]; intros i; simpl.
  - now left.
  - destruct (N.eqb x c).
    + right; lia.
    + destruct (IH (i + 1)) as [H|H]; [now left | right; lia].
Qed.

Lemma indexOf_from_absent c s : forall i,
  0 <= i -> (indexOf_from c i s = -1 <-> ~ In c s).
Proof.
  induction s as [|x s IH]; intros i Hi; simpl.
  - split; [intros _ [] | reflexivity].
  - destruct (N.eqb_spec x c) as [->|Hne].
    + split; [lia | intros H; exfalso; apply H; now left].
    + rewrite IH by lia. split.
      * intros H [E|E]; [congruence | auto].
      * intros H E; apply H; now right.
Qed.

Lemma indexOf_absent s c : indexOf s c = -1 <-> ~ In c s.
Proof. apply indexOf_from_absent; lia. Qed.

Lemma indexOf_from_found c s : forall i,
  0 <= i -> indexOf_from c i s <> -1 ->
  exists k r, indexOf_from c i s = i + Z.of_nat k /\ (k < List.length s)%nat
              /\ skipn k s = c :: r.
Proof.
  induction s as [|x s IH]; intros i Hi; simpl.
  - congruence.
  - destruct (N.eqb_spec x c) as [->|Hne]; intros H.
    + exists O, s. repeat split; simpl; lia.
    + destruct (IH (i + 1)) as (k & r & E & Hk & Hs); [lia | exact H |].
      exists (S k), r. repeat split; simpl; try lia. exact Hs.
Qed.

(** The text cut at the first occurrence of [c] begins with [c]. *)
Lemma substring_from_indexOf s c :
  indexOf s c <> -1 ->
  exists r, substring_from s (indexOf s c) = c :: r.
Proof.
  intros H. unfold indexOf in *.
  destruct (indexOf_from_found c s 0) as (k & r & E & Hk & Hs); [lia | exact H |].
  exists r. unfold substring_from, clamp. rewrite E.
  replace (Nat.min (Z.to_nat (0 + Z.of_nat k)) (List.length s)) with k by lia.
  exact Hs.
Qed.

Lemma find_balanced_end_range s : forall i b,
  find_balanced_end i b s = -1 \/ i <= find_balanced_end i b s.
Proof.
  induction s as [|x s IH]; intros i b; simpl.
  - now left.
  - destruct (N.eqb x LBRACE).
    + destruct (IH (i + 1) (b + 1)) as [H|H]; [now left | right; lia].
    + destruct (N.eqb x RBRACE).
      * destruct (b - 1 =? 0).
        -- right; lia.
        -- destruct (IH (i + 1) (b - 1)) as [H|H]; [now left | right; lia].
      * destruct (IH (i + 1) b) as [H|H]; [now left | right; lia].
Qed.

Lemma lastIndexOf_from_range c s : forall i found,
  lastIndexOf_from c i found s = found \/ i <= lastIndexOf_from c i found s.
Proof.
  induction s as [|x s IH]; intros i found; simpl.
  - now left.
  - destruct (N.eqb x c).
    + destruct (IH (i + 1) i) as [H|H]; right; lia.
    + destruct (IH (i + 1) found) as [H|H]; [now left | right; lia].
Qed.

Lemma lastIndexOf_range s c : lastIndexOf s c = -1 \/ 0 <= lastIndexOf s c.
Proof. apply lastIndexOf_from_range. Qed.

(** A prefix of positive length keeps the first code unit. *)
Lemma substring_prefix_head c r n :
  0 <= n -> exists r', substring (c :: r) 0 (n + 1) = c :: r'.
Proof.
  intros Hn. unfold substring, clamp. simpl List.length.
  replace (Z.to_nat 0) with O by reflexivity.
  rewrite Nat.min_0_l. rewrite Nat.min_0_l, Nat.max_0_l, Nat.sub_0_r.
  destruct (Nat.min (Z.to_nat (n + 1)) (S (List.length r))) as [|m] eqn:E.
  - lia.
  - simpl. eauto.
Qed.

(* ===================================================================== *)
(** ** The stages of [parseModelJSON]                                     *)
(* ===================================================================== *)

Section ParserFacts.

Variable JSON_parse : jsstring -> completion value.

Lemma parseModelJSON_located text :
  text <> [] -> indexOf (strip_markdown text) LBRACE <> -1 ->
  parseModelJSON JSON_parse text = recover JSON_parse (located text).
Proof.
  intros Ht Hs. unfold parseModelJSON. destruct text as [|c t]; [congruence|].
  destruct (Z.eqb_spec (indexOf (strip_markdown (c :: t)) LBRACE) (-1)) as [E|_];
    [congruence|].
  fold (located (c :: t)). set (clean := located (c :: t)).
  unfold recover, call_JSON_parse, try_catch, bind, console_error, ret,
    balanced_prefix, last_brace_prefix.
  destruct (JSON_parse clean); [reflexivity|].
  destruct (find_balanced_end 0 0 clean =? -1); simpl; [reflexivity|].
  destruct (JSON_parse (substring clean 0 (find_balanced_end 0 0 clean + 1)));
    [reflexivity|].
  destruct (lastIndexOf clean RBRACE =? -1); simpl; [reflexivity|].
  destruct (JSON_parse (substring clean 0 (lastIndexOf clean RBRACE + 1)));
    reflexivity.
Qed.

Lemma parseModelJSON_no_brace text :
  indexOf (strip_markdown text) LBRACE = -1 ->
  parseModelJSON JSON_parse text = (Normal JNull, []).
Proof.
  intros H. unfold parseModelJSON. destruct text; [reflexivity|].
  rewrite H. reflexivity.
Qed.

Lemma recover_never_throws clean :
  exists v, outcome (recover JSON_parse clean) = Normal v.
Proof.
  unfold recover.
  repeat match goal with
         | |- context [match ?x with Normal _ => _ | Throw _ => _ end] => destruct x
         | |- context [if ?b then _ else _] => destruct b
         end; simpl; eauto.
Qed.

Lemma recover_at_most_three clean :
  (List.length (decode_attempts (events (recover JSON_parse clean))) <= 3)%nat.
Proof.
  unfold recover.
  repeat match goal with
         | |- context [match ?x with Normal _ => _ | Throw _ => _ end] => destruct x
         | |- context [if ?b then _ else _] => destruct b
         end; simpl; lia.
Qed.

Local Ltac braced :=
  repeat (apply Forall_cons; [solve [auto] |]); apply Forall_nil.

(** Every text handed to [JSON.parse] begins with [{]. *)
Lemma recover_attempts_braced r :
  Forall (fun s => exists s', s = LBRACE :: s')
         (decode_attempts (events (recover JSON_parse (LBRACE :: r)))).
Proof.
  set (clean := LBRACE :: r).
  assert (Hc : exists s', clean = LBRACE :: s') by (now exists r).
  assert (Hb : find_balanced_end 0 0 clean <> -1 ->
               exists s', balanced_prefix clean = LBRACE :: s').
  { intros H. apply substring_prefix_head.
    destruct (find_balanced_end_range clean 0 0); [congruence | assumption]. }
  assert (Hl : lastIndexOf clean RBRACE <> -1 ->
               exists s', last_brace_prefix clean = LBRACE :: s').
  { intros H. apply substring_prefix_head.
    destruct (lastIndexOf_range clean RBRACE); [congruence | assumption]. }
  clearbody clean. unfold recover.
  destruct (JSON_parse clean); simpl; [braced|].
  destruct (Z.eqb_spec (find_balanced_end 0 0 clean) (-1)) as [|Hb'];
    simpl; [braced|].
  destruct (JSON_parse (balanced_prefix clean)); simpl; [braced|].
  destruct (Z.eqb_spec (lastIndexOf clean RBRACE) (-1)) as [|Hl'];
    simpl; [braced|].
  destruct (JSON_parse (last_brace_prefix clean)); simpl; braced.
Qed.

(** A value that is returned is what [JSON.parse] made of one of the
    attempts; [null] is also what the parser returns for "nothing". *)
Lemma recover_result clean v :
  outcome (recover JSON_parse clean) = Normal v ->
  v = JNull \/
  exists s, In s (decode_attempts (events (recover JSON_parse clean))) /\ JSON_parse s = Normal v.
Proof.
  unfold recover.
  destruct (JSON_parse clean) eqn:E1; simpl.
  - intros [= <-]. right. exists clean. simpl. auto.
  - destruct (find_balanced_end 0 0 clean =? -1); simpl.
    + intros [= <-]. now left.
    + destruct (JSON_parse (balanced_prefix clean)) eqn:E2; simpl.
      * intros [= <-]. right. exists (balanced_prefix clean). simpl. auto.
      * destruct (lastIndexOf clean RBRACE =? -1); simpl.
        -- intros [= <-]. now left.
        -- destruct (JSON_parse (last_brace_prefix clean)) eqn:E3; simpl.
           ++ intros [= <-]. right. exists (last_brace_prefix clean). simpl. auto.
           ++ intros [= <-]. now left.
Qed.

End ParserFacts.

Lemma lastIndexOf_from_absent c s : forall i found,
  found < i -> (lastIndexOf_from c i found s = found <-> ~ In c s).
Proof.
  induction s as [|x s IH]; intros i found Hlt; simpl.
  - split; [intros _ [] | reflexivity].
  - destruct (N.eqb_spec x c) as [->|Hne].
    + split.
      * intros H. destruct (lastIndexOf_from_range c s (i + 1) i); lia.
      * intros H; exfalso; apply H; now left.
    + rewrite IH by lia. split.
      * intros H [E|E]; [congruence | auto].
      * intros H E; apply H; now right.
Qed.

Lemma lastIndexOf_absent s c : lastIndexOf s c = -1 <-> ~ In c s.
Proof. apply lastIndexOf_from_absent; lia. Qed.

(** The loop of stage 4 stops only at a [}]. *)
Lemma find_balanced_end_brace s : forall i b,
  find_balanced_end i b s <> -1 -> In RBRACE s.
Proof.
  induction s as [|x s IH]; intros i b; simpl.
  - congruence.
  - destruct (N.eqb x LBRACE).
    + intros H; right; eapply IH; eassumption.
    + destruct (N.eqb_spec x RBRACE) as [->|_].
      * intros _; now left.
      * intros H; right; eapply IH; eassumption.
Qed.

(** With a balanced end there is a last [}]: the [return null] after
    the innermost [if] is never reached. *)
Lemma balanced_end_has_last_brace clean :
  find_balanced_end 0 0 clean <> -1 -> lastIndexOf clean RBRACE <> -1.
Proof.
  intros H E. apply lastIndexOf_absent in E. apply E.
  eapply find_balanced_end_brace; eassumption.
Qed.

(* ===================================================================== *)
(** ** [replace] and [trim] on a clean encoding                           *)
(* ===================================================================== *)

Lemma starts_with_app p q s :
  starts_with (p ++ q) s = true -> starts_with p s = true.
Proof.
  revert s; induction p as [|x p IH]; intros s; simpl; [reflexivity|].
  destruct s as [|y s]; [discriminate|].
  intros H; apply andb_true_iff in H as [-> H]. simpl. now apply IH.
Qed.

Lemma includes_app p q s :
  includes p s = false -> includes (p ++ q) s = false.
Proof.
  induction s as [|y s IH]; simpl; intros H; apply orb_false_iff in H as [H1 H2].
  - destruct (starts_with (p ++ q) []) eqn:E; [|reflexivity].
    apply starts_with_app in E. congruence.
  - rewrite IH by assumption.
    destruct (starts_with (p ++ q) (y :: s)) eqn:E; [|reflexivity].
    apply starts_with_app in E. congruence.
Qed.

Lemma remove_matches_absent p s :
  includes p s = false -> remove_matches p O s = s.
Proof.
  induction s as [|c s IH]; [reflexivity|].
  intros H. change (includes p (c :: s))
    with (starts_with p (c :: s) || includes p s)%bool in H.
  apply orb_false_iff in H as [H1 H2].
  cbn [remove_matches]. rewrite H1, IH by assumption. reflexivity.
Qed.

Lemma trim_start_head c s :
  is_js_whitespace c = false -> trim_start (c :: s) = c :: s.
Proof. intros H; simpl; now rewrite H. Qed.

Lemma trim_end_last c s :
  is_js_whitespace c = false -> trim_end (s ++ [c]) = s ++ [c].
Proof.
  intros H. unfold trim_end. rewrite rev_app_distr.
  change (rev [c] ++ rev s) with (c :: rev s).
  rewrite trim_start_head by assumption.
  change (rev (c :: rev s)) with (rev (rev s) ++ [c]).
  now rewrite rev_involutive.
Qed.

(** Stage 1 leaves a text alone that has no fence, begins with [{] and
    ends with [}]. *)
Lemma strip_markdown_clean body :
  includes FENCE (LBRACE :: body ++ [RBRACE]) = false ->
  strip_markdown (LBRACE :: body ++ [RBRACE]) = LBRACE :: body ++ [RBRACE].
Proof.
  intros H. unfold strip_markdown, replace_all_empty.
  rewrite (remove_matches_absent FENCE_JSON).
  2:{ change FENCE_JSON with (FENCE ++ js "json"). now apply includes_app. }
  rewrite remove_matches_absent by assumption.
  unfold trim. rewrite trim_start_head by reflexivity.
  change (LBRACE :: body ++ [RBRACE]) with ((LBRACE :: body) ++ [RBRACE]).
  now apply trim_end_last.
Qed.

Lemma located_clean body :
  includes FENCE (LBRACE :: body ++ [RBRACE]) = false ->
  located (LBRACE :: body ++ [RBRACE]) = LBRACE :: body ++ [RBRACE].
Proof.
  intros H. unfold located. rewrite strip_markdown_clean by assumption.
  reflexivity.
Qed.

(* ===================================================================== *)
(** ** The reference decoder                                              *)
(* ===================================================================== *)

Lemma read_members_object pv n : forall s acc v r,
  JSONRef.read_members pv n s acc = Some (v, r) -> is_object v.
Proof.
  induction n as [|n IH]; intros s acc v r; simpl; [discriminate|].
  repeat match goal with
         | |- context [match ?x with _ => _ end] => destruct x; try discriminate
         end.
  - apply IH.
  - intros [= <- _]. exact I.
Qed.

(** A text that begins with [{] decodes to an object or not at all. *)
Lemma JSONRef_brace_object s v :
  JSONRef.JSON_parse (LBRACE :: s) = Normal v -> is_object v.
Proof.
  unfold JSONRef.JSON_parse.
  destruct (JSONRef.read_value _ _) as [[w rest]|] eqn:E; [|discriminate].
  destruct (JSONRef.skip_ws rest); [|discriminate].
  intros [= <-]. revert E.
  cbn [JSONRef.read_value]. change (JSONRef.skip_ws (LBRACE :: s)) with (LBRACE :: s).
  change (N.eqb LBRACE 123) with true. cbv iota.
  destruct (JSONRef.skip_ws s) as [|d s'']; [discriminate|].
  destruct (N.eqb d 125).
  - intros [= <- _]. exact I.
  - apply read_members_object.
Qed.

(* ===================================================================== *)
(** ** The parser: properties                                             *)
(* ===================================================================== *)

(** C1. For every decoder and every text, [parseModelJSON] returns: the
    outcome is a value ([null] for "nothing"), never an exception, and
    [JSON.parse] is tried at most three times.  The function is total,
    so it terminates on every input. *)
Theorem parseModelJSON_never_throws :
  forall (JSON_parse : jsstring -> completion value) (text : jsstring),
    (exists v, outcome (parseModelJSON JSON_parse text) = Normal v)
    /\ (List.length (decode_attempts (events (parseModelJSON JSON_parse text))) <= 3)%nat.
Proof.
  intros JSON_parse text.
  destruct text as [|c t]; [split; [now exists JNull | simpl; lia]|].
  destruct (Z.eq_dec (indexOf (strip_markdown (c :: t)) LBRACE) (-1)) as [E|E].
  - rewrite parseModelJSON_no_brace by assumption.
    split; [now exists JNull | simpl; lia].
  - rewrite parseModelJSON_located by (assumption || discriminate).
    split; [apply recover_never_throws | apply recover_at_most_three].
Qed.

(** C9. A text with no [{] left after the fences are stripped and the
    white space trimmed yields [null], and [JSON.parse] is not called
    at all (nor is anything logged). *)
Theorem parseModelJSON_without_brace :
  forall (JSON_parse : jsstring -> completion value) (text : jsstring),
    ~ In LBRACE (strip_markdown text) ->
    parseModelJSON JSON_parse text = (Normal JNull, []).
Proof.
  intros JSON_parse text H. apply parseModelJSON_no_brace.
  now apply indexOf_absent.
Qed.

Lemma parseModelJSON_without_brace_witness :
  ~ In LBRACE (strip_markdown (js "I found nothing."))
  /\ parseModelJSON JSONRef.JSON_parse (js "I found nothing.") = (Normal JNull, []).
Proof.
  assert (H : ~ In LBRACE (strip_markdown (js "I found nothing."))).
  { apply indexOf_absent. vm_compute. reflexivity. }
  split; [exact H | exact (parseModelJSON_without_brace JSONRef.JSON_parse _ H)].
Defined.

(** C10. With a decoder that, like [JSON.parse], makes an object of a
    text that begins with [{] or fails, every result of the parser
    other than [null] is an object: each of the three decode attempts is
    made on a text that begins with the located [{]. *)
Theorem parseModelJSON_returns_object :
  forall (JSON_parse : jsstring -> completion value) (text : jsstring) (v : value),
    (forall s w, JSON_parse (LBRACE :: s) = Normal w -> is_object w) ->
    outcome (parseModelJSON JSON_parse text) = Normal v ->
    v <> JNull ->
    is_object v.
Proof.
  intros JSON_parse text v Hobj Hout Hv.
  destruct text as [|c t]; [simpl in Hout; congruence|].
  destruct (Z.eq_dec (indexOf (strip_markdown (c :: t)) LBRACE) (-1)) as [E|E].
  - rewrite parseModelJSON_no_brace in Hout by assumption.
    simpl in Hout. congruence.
  - rewrite parseModelJSON_located in Hout by (assumption || discriminate).
    destruct (substring_from_indexOf _ _ E) as [r Hr].
    unfold located in Hout. rewrite Hr in Hout.
    destruct (recover_result _ _ _ Hout) as [|(s & Hin & Hs)]; [congruence|].
    pose proof (recover_attempts_braced JSON_parse r) as Hall.
    rewrite Forall_forall in Hall.
    destruct (Hall s Hin) as [s' ->].
    eapply Hobj; eassumption.
Qed.

Lemma parseModelJSON_returns_object_witness :
  outcome (parseModelJSON JSONRef.JSON_parse (jsq "{'a':1} Hope that helps!"))
    = Normal (JObject [(js "a", JNumber 1)])
  /\ is_object (JObject [(js "a", JNumber 1)]).
Proof.
  assert (H : outcome (parseModelJSON JSONRef.JSON_parse (jsq "{'a':1} Hope that helps!"))
              = Normal (JObject [(js "a", JNumber 1)])).
  { vm_compute. reflexivity. }
  split; [exact H |].
  apply (parseModelJSON_returns_object JSONRef.JSON_parse
           (jsq "{'a':1} Hope that helps!") _ JSONRef_brace_object H).
  discriminate.
Defined.

(** The scenarios of the specification: a fenced reply between two
    sentences, and an object followed by a sentence. *)
Example fenced_reply :
  outcome (parseModelJSON JSONRef.JSON_parse
             (js "Sure! Here is the JSON:" ++ [10%N] ++ js "```json" ++ [10%N]
              ++ jsq "{'score': 87, 'unused': ['milk'], 'explanation': 'ok'}"
              ++ [10%N] ++ js "```" ++ [10%N] ++ js "Tell me if you need more."))
  = Normal (JObject [(js "score", JNumber 87);
                     (js "unused", JArray [JString (js "milk")]);
                     (js "explanation", JString (js "ok"))]).
Proof. vm_compute. reflexivity. Qed.

Example trailing_prose :
  parseModelJSON JSONRef.JSON_parse (jsq "{'a':[1,2]} Hope that helps!")
  = (Normal (JObject [(js "a", JArray [JNumber 1; JNumber 2])]),
     [Decode (jsq "{'a':[1,2]} Hope that helps!"); Decode (jsq "{'a':[1,2]}")]).
Proof. vm_compute. reflexivity. Qed.

(** C5, as stated, fails: on [{"a":"{"} x] the fast path fails, the
    depth never returns to zero, the text up to the last [}] is an
    object that [JSON.parse] reads, and yet the parser returns [null]
    after the single attempt of the fast path. *)
Lemma last_resort_skipped_without_balance :
  let text := jsq "{'a':'{'} x" in
  JSONRef.JSON_parse (located text) = Throw SyntaxError
  /\ find_balanced_end 0 0 (located text) = -1
  /\ lastIndexOf (located text) RBRACE = 8
  /\ JSONRef.JSON_parse (last_brace_prefix (located text))
     = Normal (JObject [(js "a", JString (js "{"))])
  /\ parseModelJSON JSONRef.JSON_parse text = (Normal JNull, [Decode text])
  /\ ~ last_resort_attempted JSONRef.JSON_parse text.
Proof.
  repeat split; try (vm_compute; reflexivity).
  unfold last_resort_attempted. vm_compute.
  intros [H|[]]. discriminate H.
Qed.

(** C5, amended.  When the fast path fails: if a balanced end is found
    and the decode up to it fails too, the text up to and including the
    last [}] is decoded as a last resort, and its value, or [null], is
    returned; if no balanced end is found, [null] is returned after the
    fast path alone. *)
Theorem last_resort_after_balanced_failure :
  forall (JSON_parse : jsstring -> completion value) (text : jsstring) (e : exn),
    In LBRACE (strip_markdown text) ->
    text <> [] ->
    JSON_parse (located text) = Throw e ->
    let clean := located text in
    let r := parseModelJSON JSON_parse text in
    (forall e', find_balanced_end 0 0 clean <> -1 ->
                JSON_parse (balanced_prefix clean) = Throw e' ->
                decode_attempts (events r)
                  = [clean; balanced_prefix clean; last_brace_prefix clean]
                /\ outcome r = match JSON_parse (last_brace_prefix clean) with
                               | Normal v => Normal v
                               | Throw _ => Normal JNull
                               end)
    /\ (find_balanced_end 0 0 clean = -1 -> r = (Normal JNull, [Decode clean])).
Proof.
  intros JSON_parse text e Hin Ht He clean r.
  assert (Hs : indexOf (strip_markdown text) LBRACE <> -1).
  { intros E. apply indexOf_absent in E. contradiction. }
  subst r. rewrite parseModelJSON_located by assumption.
  fold clean in He |- *. unfold recover. rewrite He. split.
  - intros e' Hend Hbal.
    destruct (Z.eqb_spec (find_balanced_end 0 0 clean) (-1)); [contradiction|].
    rewrite Hbal.
    destruct (Z.eqb_spec (lastIndexOf clean RBRACE) (-1)) as [E|_].
    + now apply balanced_end_has_last_brace in Hend.
    + destruct (JSON_parse (last_brace_prefix clean)); split; reflexivity.
  - intros ->. reflexivity.
Qed.

Lemma last_resort_after_balanced_failure_witness :
  let text := jsq "{'a':'}'} x" in
  decode_attempts (events (parseModelJSON JSONRef.JSON_parse text))
    = [jsq "{'a':'}'} x"; jsq "{'a':'}"; jsq "{'a':'}'}"]
  /\ outcome (parseModelJSON JSONRef.JSON_parse text)
     = Normal (JObject [(js "a", JString (js "}"))]).
Proof.
  pose (text := jsq "{'a':'}'} x").
  assert (Hin : In LBRACE (strip_markdown text)) by (vm_compute; auto).
  assert (Ht : text <> []) by discriminate.
  assert (He : JSONRef.JSON_parse (located text) = Throw SyntaxError)
    by (vm_compute; reflexivity).
  assert (Hend : find_balanced_end 0 0 (located text) <> -1)
    by (vm_compute; discriminate).
  assert (Hbal : JSONRef.JSON_parse (balanced_prefix (located text)) = Throw SyntaxError)
    by (vm_compute; reflexivity).
  exact (proj1 (last_resort_after_balanced_failure JSONRef.JSON_parse text
                  SyntaxError Hin Ht He) SyntaxError Hend Hbal).
Defined.

(** C6, as stated, fails.  The encoding of an array holding one object
    comes back as that inner object, not as the array; and an object
    with a string of three backticks comes back with the string
    emptied.  In both cases [JSON.parse] alone reads the encoding back. *)
Lemma parse_stringify_not_identity :
  let v1 := JArray [JObject [(js "a", JNumber 1)]] in
  let v2 := JObject [(js "a", JString (js "```"))] in
  JSONRef.JSON_parse (JSONRef.JSON_stringify v1) = Normal v1
  /\ outcome (parseModelJSON JSONRef.JSON_parse (JSONRef.JSON_stringify v1))
     = Normal (JObject [(js "a", JNumber 1)])
  /\ outcome (parseModelJSON JSONRef.JSON_parse (JSONRef.JSON_stringify v1)) <> Normal v1
  /\ JSONRef.JSON_parse (JSONRef.JSON_stringify v2) = Normal v2
  /\ outcome (parseModelJSON JSONRef.JSON_parse (JSONRef.JSON_stringify v2))
     = Normal (JObject [(js "a", JString [])])
  /\ outcome (parseModelJSON JSONRef.JSON_parse (JSONRef.JSON_stringify v2)) <> Normal v2.
Proof.
  repeat split; try (vm_compute; reflexivity); vm_compute; discriminate.
Qed.

(** C6, amended.  For every object [v] whose encoding holds no run of
    three backticks and is read back by [JSON.parse], the parser
    returns [v], by the fast path alone.  This holds for every
    [Number::toString]. *)
Theorem parse_stringify_object :
  forall (JSON_parse : jsstring -> completion value)
         (number_to_string : Q -> jsstring)
         (props : list (jsstring * value)),
    let v := JObject props in
    let text := JSON_stringify number_to_string v in
    includes FENCE text = false ->
    JSON_parse text = Normal v ->
    parseModelJSON JSON_parse text = (Normal v, [Decode text]).
Proof.
  intros JSON_parse n2s props v text Hf Hp.
  subst v text. cbn [JSON_stringify] in *.
  set (body := join_comma _) in *.
  assert (Hs : strip_markdown (LBRACE :: body ++ [RBRACE]) = LBRACE :: body ++ [RBRACE])
    by now apply strip_markdown_clean.
  rewrite parseModelJSON_located.
  - rewrite located_clean by assumption. unfold recover. now rewrite Hp.
  - discriminate.
  - rewrite Hs. unfold indexOf. simpl. discriminate.
Qed.

Lemma parse_stringify_object_witness :
  let v := JObject [(js "score", JNumber 87);
                    (js "unused", JArray [JString (js "milk")]);
                    (js "explanation", JString (js "ok"))] in
  JSONRef.JSON_stringify v = jsq "{'score':87,'unused':['milk'],'explanation':'ok'}"
  /\ parseModelJSON JSONRef.JSON_parse (JSONRef.JSON_stringify v)
     = (Normal v, [Decode (JSONRef.JSON_stringify v)]).
Proof.
  split; [vm_compute; reflexivity|].
  apply (parse_stringify_object JSONRef.JSON_parse JSONRef.number_to_string);
    vm_compute; reflexivity.
Defined.

(* ===================================================================== *)
(** ** The capture callback                                               *)
(* ===================================================================== *)

Lemma int16_bytes_are_bytes v :
  forallb (fun c => (c <? 256)%N) (int16_bytes v) = true.
Proof.
  unfold int16_bytes. cbn [forallb].
  pose proof (Z.mod_pos_bound v 65536 eq_refl) as Hu.
  pose proof (Z.mod_pos_bound (v mod 65536) 256 eq_refl) as Hlo.
  assert (Hhi : 0 <= v mod 65536 / 256 < 256).
  { split; [apply Z.div_pos; lia | apply Z.div_lt_upper_bound; lia]. }
  rewrite andb_true_r. apply andb_true_iff; split; apply N.ltb_lt; lia.
Qed.

Lemma flat_map_bytes (l : list Z) :
  forallb (fun c => (c <? 256)%N) (flat_map int16_bytes l) = true.
Proof.
  induction l as [|v l IH]; [reflexivity|].
  cbn [flat_map]. rewrite forallb_app, int16_bytes_are_bytes, IH. reflexivity.
Qed.

(** [createBlob] never throws: [btoa] is given bytes. *)
Lemma createBlob_normal samples :
  exists blob, createBlob samples = Normal blob.
Proof.
  unfold createBlob, Base64.btoa. rewrite flat_map_bytes. eauto.
Qed.

(** C4, as stated, fails: a frame captured while the stream is still
    opening is kept as a reaction on the pending promise and sent once
    the stream opens. *)
Lemma frame_kept_while_opening :
  let c0 := client (connect fresh_context microphone new_LiveClient) in
  let blob := {| data := js "AEA="; mimeType := js "audio/pcm;rate=16000" |} in
  let r1 := onaudioprocess [1 # 2]%Q c0 in
  let r2 := settle (Normal LiveSession) (client r1) in
  sessionPromise c0 = Some (Pending [])
  /\ result r1 = Normal tt
  /\ calls r1 = []
  /\ sessionPromise (client r1) = Some (Pending [blob])
  /\ calls r2 = [SendRealtimeInput blob].
Proof. vm_compute. repeat split; reflexivity. Qed.

(** C4, amended.  The capture callback always returns normally, at
    once.  Without a session promise the frame is dropped.  With a
    pending promise the frame is queued behind the frames before it,
    and the queue is sent in order when the promise is fulfilled, not
    at all when it is rejected.  With a fulfilled promise the frame is
    sent. *)
Theorem capture_callback :
  forall (c : LiveClient) (samples : list Q),
    let r := onaudioprocess samples c in
    result r = Normal tt
    /\ (sessionPromise c = None -> client r = c /\ calls r = [])
    /\ (forall queue, sessionPromise c = Some (Pending queue) ->
          exists blob,
            createBlob samples = Normal blob
            /\ client r = set_sessionPromise (Some (Pending (queue ++ [blob]))) c
            /\ calls r = []
            /\ (forall session,
                  calls (settle (Normal session) (client r))
                  = map SendRealtimeInput (queue ++ [blob]))
            /\ (forall e, calls (settle (Throw e) (client r)) = []))
    /\ (forall session, sessionPromise c = Some (Fulfilled session) ->
          exists blob,
            createBlob samples = Normal blob
            /\ client r = c /\ calls r = [SendRealtimeInput blob]).
Proof.
  intros c samples r. subst r.
  destruct (createBlob_normal samples) as [blob Hb].
  unfold onaudioprocess, mbind, lift, this. rewrite Hb.
  destruct (sessionPromise c) as [[q|s|e]|] eqn:Hp; cbn;
    (split; [reflexivity | split; [|split]]); try discriminate.
  - intros queue [= <-]. exists blob.
    split; [reflexivity | split; [reflexivity | split; [reflexivity | split]]].
    + intros session. cbn. rewrite ?app_nil_r. reflexivity.
    + reflexivity.
  - intros session _. exists blob. auto.
  - auto.
Qed.

Lemma capture_callback_witness :
  let c := client (onaudioprocess [1 # 2]%Q
                     (client (connect fresh_context microphone new_LiveClient))) in
  let blob1 := {| data := js "AEA="; mimeType := js "audio/pcm;rate=16000" |} in
  exists blob,
    createBlob [-1 # 2]%Q = Normal blob
    /\ client (onaudioprocess [-1 # 2]%Q c)
       = set_sessionPromise (Some (Pending ([blob1] ++ [blob]))) c
    /\ calls (onaudioprocess [-1 # 2]%Q c) = []
    /\ (forall session,
          calls (settle (Normal session) (client (onaudioprocess [-1 # 2]%Q c)))
          = map SendRealtimeInput ([blob1] ++ [blob]))
    /\ (forall e, calls (settle (Throw e) (client (onaudioprocess [-1 # 2]%Q c))) = []).
Proof.
  intros c blob1.
  apply (proj1 (proj2 (proj2 (capture_callback c [-1 # 2]%Q)))).
  vm_compute. reflexivity.
Defined.

(* ===================================================================== *)
(** ** The message handler                                                *)
(* ===================================================================== *)

Lemma scheduled_app l1 l2 : scheduled (l1 ++ l2) = scheduled l1 ++ scheduled l2.
Proof.
  induction l1 as [|x l1 IH]; [reflexivity|].
  destruct x; simpl; rewrite ?IH; reflexivity.
Qed.

Lemma transcribe_spec m c :
  transcribe m c
  = (Normal tt, c,
     if truthy (transcription_text (inputTranscription m))
        || truthy (transcription_text (outputTranscription m))
     then [OnTranscription (transcription_text (inputTranscription m))
                           (transcription_text (outputTranscription m))]
     else []).
Proof.
  unfold transcribe.
  destruct (truthy _ || truthy _); reflexivity.
Qed.

(** A buffer has at least one frame. *)
Lemma decodeAudioData_duration bytes rate n buf :
  decodeAudioData bytes rate n = Normal buf -> (0 < duration buf)%Q.
Proof.
  unfold decodeAudioData, createBuffer.
  destruct (new_Int16Array bytes) as [l|]; [|discriminate].
  destruct (Nat.eqb n 0); [discriminate|]. cbn [orb].
  destruct (Nat.eqb_spec (List.length l / n) 0) as [|Hf]; [discriminate|].
  intros [= <-]. unfold duration, Qlt. simpl. lia.
Qed.













(** One message, whatever it carries: either nothing is started and
    the cursor does not move back, or one buffer of positive duration
    is started at [max(cursor, now)] and the cursor moves to its end. *)
Lemma onmessage_cursor t m c :
  (scheduled (calls (onmessage t m c)) = []
   /\ (nextStartTime c <= nextStartTime (client (onmessage t m c)))%Q)
  \/ (exists d, (0 < d)%Q
        /\ scheduled (calls (onmessage t m c)) = [(Qmax (nextStartTime c) t, d)]
        /\ nextStartTime (client (onmessage t m c)) = (Qmax (nextStartTime c) t + d)%Q).
Proof.
  unfold onmessage, mbind, this.
  destruct (inlineData m) as [b|].
  2:{ left. unfold mret. rewrite transcribe_spec. cbn.
      destruct (truthy _ || truthy _); cbn; split; (reflexivity || apply Qle_refl). }
  destruct (outputAudioContext c) as [ctx|].
  2:{ left. unfold mret. rewrite transcribe_spec. cbn.
      destruct (truthy _ || truthy _); cbn; split; (reflexivity || apply Qle_refl). }
  destruct (truthy b).
  2:{ left. unfold mret. rewrite transcribe_spec. cbn.
      destruct (truthy _ || truthy _); cbn; split; (reflexivity || apply Qle_refl). }
  unfold play, play_begin, play_finish, mbind, this, assign, lift, platform.
  destruct (decode b) as [bytes|].
  - destruct (decodeAudioData bytes 24000 1) as [buf|] eqn:E.
    + right. exists (duration buf). rewrite transcribe_spec. cbn.
      split; [eapply decodeAudioData_duration; eassumption|].
      destruct (truthy _ || truthy _); cbn; split; reflexivity.
    + left. cbn. split; [reflexivity | apply Q.le_max_l].
  - left. cbn. split; [reflexivity | apply Q.le_max_l].
Qed.

Lemma handle_messages_lower evs : forall c k s d,
  nth_error (scheduled (snd (handle_messages evs c))) k = Some (s, d) ->
  (nextStartTime c <= s)%Q /\ (0 < d)%Q.
Proof.
  induction evs as [|[t m] evs IH]; intros c k s d; [destruct k; discriminate|].
  cbn [handle_messages].
  destruct (handle_messages evs (client (onmessage t m c))) as [c' l] eqn:Erun.
  cbn [snd]. rewrite scheduled_app.
  pose proof (IH (client (onmessage t m c))) as IH'. rewrite Erun in IH'. cbn [snd] in IH'.
  destruct (onmessage_cursor t m c) as [[Hs Hn]|(d0 & Hd0 & Hs & Hn)]; rewrite Hs.
  - cbn [app]. intros H. destruct (IH' _ _ _ H) as [Hle Hd].
    split; [eapply Qle_trans; eassumption | exact Hd].
  - destruct k as [|k]; cbn [app nth_error].
    + intros [= <- <-]. split; [apply Q.le_max_l | exact Hd0].
    + intros H. destruct (IH' _ _ _ H) as [Hle Hd]. split; [|exact Hd].
      rewrite Hn in Hle. eapply Qle_trans; [|exact Hle].
      eapply Qle_trans; [apply (Q.le_max_l (nextStartTime c) t)|].
      rewrite <- (Qplus_0_r (Qmax (nextStartTime c) t)) at 1.
      apply Qplus_le_r. now apply Qlt_le_weak.
Qed.

(** Whatever the messages of a run carry, chunks that fail to decode
    included: a buffer starts after the end of every buffer started
    before it. *)
Lemma playback_never_out_of_order evs : forall c i j si di sj dj,
  (i < j)%nat ->
  nth_error (scheduled (snd (handle_messages evs c))) i = Some (si, di) ->
  nth_error (scheduled (snd (handle_messages evs c))) j = Some (sj, dj) ->
  (si + di <= sj)%Q /\ (si < sj)%Q.
Proof.
  assert (Hlt : forall s d s', (0 < d)%Q -> (s + d <= s')%Q -> (s < s')%Q).
  { intros s d s' Hd Hle. eapply Qlt_le_trans; [|exact Hle].
    rewrite <- (Qplus_0_r s) at 1. now apply Qplus_lt_r. }
  induction evs as [|[t m] evs IH]; intros c i j si di sj dj Hij;
    [destruct i; discriminate|].
  cbn [handle_messages].
  pose proof (handle_messages_lower evs (client (onmessage t m c))) as Hlow.
  pose proof (IH (client (onmessage t m c))) as IH'.
  destruct (handle_messages evs (client (onmessage t m c))) as [c' l] eqn:Erun.
  cbn [snd] in *. rewrite scheduled_app.
  destruct (onmessage_cursor t m c) as [[Hs Hn]|(d0 & Hd0 & Hs & Hn)]; rewrite Hs.
  - cbn [app]. now apply IH'.
  - destruct j as [|j]; [lia|].
    destruct i as [|i]; cbn [app nth_error].
    + intros [= <- <-] Hj. destruct (Hlow _ _ _ Hj) as [Hle _].
      rewrite Hn in Hle. split; [exact Hle | eapply Hlt; eassumption].
    + apply IH'. lia.
Qed.

(** Two handlers in flight at once, the second begun while the first
    awaits its buffer: the buffers are still started in the order of
    arrival, the second at the end of the first. *)
Lemma interleaved_handlers c t1 t2 b1 b2 bytes1 bytes2 buf1 buf2 :
  decode b1 = Normal bytes1 -> decodeAudioData bytes1 24000 1 = Normal buf1 ->
  decode b2 = Normal bytes2 -> decodeAudioData bytes2 24000 1 = Normal buf2 ->
  let start := Qmax (Qmax (nextStartTime c) t1) t2 in
  scheduled (calls (mbind (play_begin t1) (fun _ =>
                    mbind (play_begin t2) (fun _ =>
                    mbind (play_finish b1) (fun _ => play_finish b2))) c))
  = [(start, duration buf1); ((start + duration buf1)%Q, duration buf2)].
Proof.
  intros H1 H2 H3 H4 start. subst start.
  unfold play_begin, play_finish, mbind, this, assign, lift, platform.
  rewrite H1, H2, H3, H4. reflexivity.
Qed.

Lemma transcriptions_app l1 l2 :
  transcriptions (l1 ++ l2) = transcriptions l1 ++ transcriptions l2.
Proof.
  induction l1 as [|x l1 IH]; [reflexivity|].
  destruct x; simpl; rewrite ?IH; reflexivity.
Qed.

(** C8, as stated, fails: a message whose chunk has an odd number of
    bytes makes [new Int16Array] throw, the handler ends there, and the
    transcript that the message carries never reaches the callback. *)
Lemma transcription_lost_on_bad_chunk :
  let m := {| inlineData := Some (js "AAAA");
              inputTranscription := Some (Some (js "hi"));
              outputTranscription := None |} in
  decode (js "AAAA") = Normal [0; 0; 0]%N
  /\ truthy (transcription_text (inputTranscription m)) = true
  /\ result (onmessage 0 m connected) = Throw RangeError
  /\ transcriptions (calls (onmessage 0 m connected)) = [].
Proof. vm_compute. repeat split; reflexivity. Qed.

(** C8, amended.  When the handler completes, the callback is called
    once with [(inText, outText)] if one of them is not empty, and not
    at all otherwise.  When the handler throws in its audio part, the
    callback is not called.  Either way it is never called with two
    empty texts.  The handler completes when the message has no chunk,
    when its chunk decodes, or when there is no output context. *)
Theorem transcription_callback :
  forall (c : LiveClient) (t : Q) (m : LiveServerMessage),
    let r := onmessage t m c in
    let inText := transcription_text (inputTranscription m) in
    let outText := transcription_text (outputTranscription m) in
    (result r = Normal tt ->
       transcriptions (calls r)
       = if truthy inText || truthy outText then [(inText, outText)] else [])
    /\ (forall e, result r = Throw e -> transcriptions (calls r) = [])
    /\ (truthy inText || truthy outText = false -> transcriptions (calls r) = [])
    /\ (chunk_ok m \/ outputAudioContext c = None -> result r = Normal tt).
Proof.
  intros c t m r inText outText. subst r inText outText.
  unfold chunk_ok, chunk_duration, onmessage, mbind, this.
  destruct (inlineData m) as [b|].
  2:{ unfold mret. rewrite transcribe_spec. cbn.
      destruct (truthy _ || truthy _); cbn; repeat split; congruence. }
  destruct (outputAudioContext c) as [ctx|].
  2:{ unfold mret. rewrite transcribe_spec. cbn.
      destruct (truthy _ || truthy _); cbn; repeat split; congruence. }
  destruct (truthy b) eqn:Eb.
  2:{ unfold mret. rewrite transcribe_spec. cbn.
      destruct (truthy _ || truthy _); cbn; repeat split; congruence. }
  unfold play, play_begin, play_finish, mbind, this, assign, lift, platform.
  destruct (decode b) as [bytes|].
  - destruct (decodeAudioData bytes 24000 1) as [buf|].
    + rewrite transcribe_spec. cbn.
      destruct (truthy _ || truthy _); cbn; repeat split; congruence.
    + cbn. repeat split; try congruence.
      intros [H|H]; [specialize (H b eq_refl Eb) |]; congruence.
  - cbn. repeat split; try congruence.
    intros [H|H]; [specialize (H b eq_refl Eb) |]; congruence.
Qed.

Lemma transcription_callback_witness :
  let m := {| inlineData := Some (js "AAAAAAAA");
              inputTranscription := Some (Some (js "hi"));
              outputTranscription := Some None |} in
  result (onmessage 0 m connected) = Normal tt
  /\ transcriptions (calls (onmessage 0 m connected)) = [(js "hi", [])].
Proof.
  intros m.
  assert (H : result (onmessage 0 m connected) = Normal tt) by (vm_compute; reflexivity).
  split; [exact H |].
  exact (proj1 (transcription_callback connected 0 m) H).
Defined.

(* ===================================================================== *)
(** ** [connect] and [disconnect]                                         *)
(* ===================================================================== *)

Lemma all_stopped (l : list bool) :
  Forall (fun live => live = false) (map (fun _ => false) l).
Proof. induction l; simpl; constructor; auto. Qed.

Lemma stop_again (l : list bool) :
  map (fun _ : bool => false) (map (fun _ : bool => false) l)
  = map (fun _ : bool => false) l.
Proof. induction l; simpl; congruence. Qed.

Local Ltac run_disconnect :=
  unfold disconnect, close_session, stop_tracks, close_input, close_output,
    stop_sources, await_session, settle, mbind, mret, this, assign, lift,
    platform, platform_each, result, client, calls, released.

(** C3, as stated, fails: after a [connect] whose stream then fails to
    open, [disconnect] throws the error of the stream at its first
    statement and nothing is released: the track stays live and both
    contexts stay open. *)
Lemma disconnect_throws_and_skips :
  let c := client (settle (Throw NetworkError) connected) in
  let r := disconnect (Normal LiveSession) c in
  sessionPromise c = Some (Rejected NetworkError)
  /\ result r = Throw NetworkError
  /\ calls r = []
  /\ client r = c
  /\ stream c = Some {| tracksLive := [true] |}
  /\ inputAudioContext c = Some {| contextRate := 16000; contextClosed := false |}
  /\ outputAudioContext c = Some {| contextRate := 24000; contextClosed := false |}.
Proof. vm_compute. repeat split; reflexivity. Qed.

(** C3, amended.  [disconnect] runs its release steps in order, with
    nothing to isolate them.  It completes, with everything released,
    when there is no session promise or the promise is or becomes
    fulfilled; that covers a client that was never connected, which it
    leaves untouched, and a second call in a row, which completes
    again and changes nothing.  When the awaited promise is or becomes
    rejected, [disconnect] throws that error and none of the later
    steps runs: no resource is released. *)
Theorem disconnect_sequential :
  forall (c : LiveClient) (settled : completion Session),
    let r := disconnect settled c in
    ((sessionPromise c = None
      \/ (exists s, sessionPromise c = Some (Fulfilled s))
      \/ (exists q s, sessionPromise c = Some (Pending q) /\ settled = Normal s)) ->
       result r = Normal tt /\ released (client r))
    /\ (forall e,
          sessionPromise c = Some (Rejected e)
          \/ (exists q, sessionPromise c = Some (Pending q) /\ settled = Throw e) ->
          result r = Throw e
          /\ filter is_release (calls r) = []
          /\ stream (client r) = stream c
          /\ inputAudioContext (client r) = inputAudioContext c
          /\ outputAudioContext (client r) = outputAudioContext c
          /\ sources (client r) = sources c)
    /\ (result r = Normal tt ->
        forall settled',
          result (disconnect settled' (client r)) = Normal tt
          /\ client (disconnect settled' (client r)) = client r)
    /\ disconnect settled new_LiveClient = (Normal tt, new_LiveClient, []).
Proof.
  intros c settled r. subst r.
  destruct c as [sp ic oc nst srcs st pr isrc al].
  split; [|split; [|split]].
  - intros [H|[[s H]|(q & s & H & ->)]]; cbn in H; subst sp;
      run_disconnect; cbn;
      destruct st as [[tr]|], ic as [[ir icl]|], oc as [[or ocl]|]; cbn;
      (split; [reflexivity|]);
      repeat split; try (intros ? [= <-]); try discriminate; cbn;
      auto using all_stopped.
  - intros e [H|(q & H & ->)]; cbn in H; subst sp;
      run_disconnect; cbn; repeat split.
  - destruct sp as [[q|s|e]|]; [destruct settled as [s|e] | | |];
      run_disconnect; cbn; try discriminate; intros _ settled';
      destruct st as [[tr]|], ic as [[ir icl]|], oc as [[or ocl]|]; cbn;
      rewrite ?stop_again; split; reflexivity.
  - reflexivity.
Qed.

Lemma disconnect_sequential_witness :
  let r := disconnect (Normal LiveSession) connected in
  result r = Normal tt
  /\ released (client r)
  /\ result (disconnect (Normal LiveSession) (client r)) = Normal tt
  /\ client (disconnect (Normal LiveSession) (client r)) = client r.
Proof.
  intros r.
  pose proof (disconnect_sequential connected (Normal LiveSession)) as (H1 & _ & H3 & _).
  assert (Hp : sessionPromise connected = None
               \/ (exists s, sessionPromise connected = Some (Fulfilled s))
               \/ (exists q s, sessionPromise connected = Some (Pending q)
                               /\ Normal LiveSession = Normal s)).
  { right; right. exists [], LiveSession. split; vm_compute; reflexivity. }
  destruct (H1 Hp) as [Hr Hrel].
  split; [exact Hr | split; [exact Hrel | exact (H3 Hr (Normal LiveSession))]].
Defined.

(** C7, as stated, fails: when the microphone is refused, [connect]
    throws with both audio contexts created, open, and released by no
    call. *)
Lemma connect_keeps_contexts_on_refusal :
  let r := connect fresh_context (Throw NotAllowedError) new_LiveClient in
  result r = Throw NotAllowedError
  /\ calls r = [NewAudioContext 16000; NewAudioContext 24000; GetUserMedia]
  /\ inputAudioContext (client r)
     = Some {| contextRate := 16000; contextClosed := false |}
  /\ outputAudioContext (client r)
     = Some {| contextRate := 24000; contextClosed := false |}.
Proof. vm_compute. repeat split; reflexivity. Qed.

(** C7, amended.  [connect] releases nothing, whatever happens.  When
    the second context cannot be made, or the microphone is refused,
    the error reaches the caller and what was acquired before stays in
    the fields of the client, as acquired.  When both contexts and the
    microphone are acquired, [connect] completes with the session
    promise pending: a stream that then fails to open rejects that
    promise and is no failure of [connect]. *)
Theorem connect_releases_nothing :
  forall (newContext : positive -> completion AudioContext)
         (userMedia : completion MediaStream) (c : LiveClient),
    let r := connect newContext userMedia c in
    filter is_release (calls r) = []
    /\ (forall i e,
          newContext 16000%positive = Normal i ->
          newContext 24000%positive = Throw e ->
          result r = Throw e /\ inputAudioContext (client r) = Some i)
    /\ (forall i o e,
          newContext 16000%positive = Normal i ->
          newContext 24000%positive = Normal o ->
          userMedia = Throw e ->
          result r = Throw e
          /\ inputAudioContext (client r) = Some i
          /\ outputAudioContext (client r) = Some o)
    /\ (forall i o ms,
          newContext 16000%positive = Normal i ->
          newContext 24000%positive = Normal o ->
          userMedia = Normal ms ->
          result r = Normal tt
          /\ sessionPromise (client r) = Some (Pending [])
          /\ forall e,
               sessionPromise (client (settle (Throw e) (client r)))
               = Some (Rejected e)).
Proof.
  intros newContext userMedia c r. subst r.
  unfold connect, mbind, mret, this, assign, lift, platform, result, client, calls.
  destruct (newContext 16000%positive) as [i|e1];
    [destruct (newContext 24000%positive) as [o|e2];
       [destruct userMedia as [ms|e3] | ] | ];
    cbn; repeat split; intros; try congruence.
Qed.

Lemma connect_releases_nothing_witness :
  let r := connect fresh_context (Throw NotAllowedError) new_LiveClient in
  result r = Throw NotAllowedError
  /\ inputAudioContext (client r)
     = Some {| contextRate := 16000; contextClosed := false |}
  /\ outputAudioContext (client r)
     = Some {| contextRate := 24000; contextClosed := false |}.
Proof.
  intros r.
  exact (proj1 (proj2 (proj2
           (connect_releases_nothing fresh_context (Throw NotAllowedError) new_LiveClient)))
           _ _ NotAllowedError eq_refl eq_refl eq_refl).
Defined.

(* ===================================================================== *)
(** ** Base64: [atob] undoes [btoa]                                       *)
(* ===================================================================== *)

Ltac Zify.zify_post_hook ::= Z.to_euclidean_division_equations.

(** Lists three elements at a time. *)
Lemma list_ind3 (A : Type) (P : list A -> Prop) :
  P [] -> (forall a, P [a]) -> (forall a b, P [a; b]) ->
  (forall a b c rest, P rest -> P (a :: b :: c :: rest)) ->
  forall l, P l.
Proof.
  intros H0 H1 H2 H3.
  assert (H : forall l, P l /\ (forall a, P (a :: l)) /\ (forall a b, P (a :: b :: l))).
  { induction l as [|x l (IHa & IHb & IHc)]; [auto|].
    split; [apply IHb | split; [intros a; apply IHc | intros a b; now apply H3]]. }
  intros l. apply H.
Qed.

Lemma char_of_not_pad n : Base64.char_of n <> 61%N.
Proof.
  unfold Base64.char_of.
  destruct (N.ltb_spec n 26); [lia|].
  destruct (N.ltb_spec n 52); [lia|].
  destruct (N.ltb_spec n 62); [lia|].
  destruct (N.eqb n 62); lia.
Qed.

Lemma char_of_not_space n : Base64.is_ascii_whitespace (Base64.char_of n) = false.
Proof.
  unfold Base64.char_of, Base64.is_ascii_whitespace.
  destruct (N.ltb_spec n 26); [|destruct (N.ltb_spec n 52);
    [|destruct (N.ltb_spec n 62); [|destruct (N.eqb n 62)]]];
    repeat (apply orb_false_iff; split); apply N.eqb_neq; lia.
Qed.

Lemma sextet_of_char_of n : (n < 64)%N -> Base64.sextet_of (Base64.char_of n) = Some n.
Proof.
  intros Hn.
  assert (Hall : forallb (fun k => match Base64.sextet_of (Base64.char_of k) with
                                   | Some k' => N.eqb k' k
                                   | None => false
                                   end) (map N.of_nat (seq 0 64)) = true)
    by (vm_compute; reflexivity).
  rewrite forallb_forall in Hall.
  specialize (Hall n). 
  assert (Hin : In n (map N.of_nat (seq 0 64))).
  { apply in_map_iff. exists (N.to_nat n). split; [lia|]. apply in_seq. lia. }
  specialize (Hall Hin).
  destruct (Base64.sextet_of (Base64.char_of n)) as [k|]; [|discriminate].
  apply N.eqb_eq in Hall. now subst.
Qed.

Lemma chars_of_bytes_split l :
  Base64.chars_of_bytes l = unpadded_chars l ++ padding l.
Proof.
  induction l as [| a | a b | a b c rest IH] using list_ind3; try reflexivity.
  cbn [Base64.chars_of_bytes unpadded_chars]. rewrite IH.
  unfold padding. cbn [List.length].
  replace (Nat.modulo (S (S (S (List.length rest)))) 3)
    with (Nat.modulo (List.length rest) 3); [reflexivity|].
  change (S (S (S (List.length rest)))) with (3 + List.length rest)%nat.
  rewrite <- (Nat.Div0.add_mod_idemp_l 3 _ 3). reflexivity.
Qed.

Lemma unpadded_chars_facts l :
  Forall (fun c => c <> 61%N /\ Base64.is_ascii_whitespace c = false) (unpadded_chars l)
  /\ (List.length (unpadded_chars l) + List.length (padding l)
      = 4 * ((List.length l + 2) / 3))%nat
  /\ Nat.modulo (List.length (unpadded_chars l)) 4 <> 1%nat.
Proof.
  assert (Hc : forall n, Base64.char_of n <> 61%N
                         /\ Base64.is_ascii_whitespace (Base64.char_of n) = false)
    by (intros n; split; [apply char_of_not_pad | apply char_of_not_space]).
  induction l as [| a | a b | a b c rest (IH1 & IH2 & IH3)] using list_ind3.
  - repeat split; [constructor | discriminate].
  - repeat split; [repeat constructor; apply Hc | discriminate].
  - repeat split; [repeat constructor; apply Hc | discriminate].
  - split; [|split].
    + cbn [unpadded_chars]. repeat (constructor; [apply Hc|]). exact IH1.
    + cbn [unpadded_chars List.length].
      assert (Hp : padding (a :: b :: c :: rest) = padding rest).
      { unfold padding. cbn [List.length].
        change (S (S (S (List.length rest)))) with (3 + List.length rest)%nat.
        rewrite <- (Nat.Div0.add_mod_idemp_l 3 _ 3). reflexivity. }
      rewrite Hp.
      replace ((S (S (S (List.length rest))) + 2) / 3)%nat
        with (S ((List.length rest + 2) / 3)).
      * lia.
      * replace (S (S (S (List.length rest))) + 2)%nat
          with (1 * 3 + (List.length rest + 2))%nat by lia.
        rewrite Nat.div_add_l by discriminate. lia.
    + cbn [unpadded_chars List.length].
      change (S (S (S (S (List.length (unpadded_chars rest))))))
        with (4 + List.length (unpadded_chars rest))%nat.
      rewrite <- (Nat.Div0.add_mod_idemp_l 4 _ 4). exact IH3.
Qed.

Lemma filter_keeps (A : Type) (f : A -> bool) (l : list A) :
  Forall (fun x => f x = true) l -> filter f l = l.
Proof.
  induction 1 as [|x l Hx _ IH]; [reflexivity|]. simpl. now rewrite Hx, IH.
Qed.

(** The padding that [btoa] adds is the padding that [atob] removes. *)
Lemma strip_padding_chars l :
  Base64.strip_padding (Base64.chars_of_bytes l) = unpadded_chars l.
Proof.
  destruct (unpadded_chars_facts l) as (Hall & Hlen & _).
  rewrite chars_of_bytes_split. unfold Base64.strip_padding.
  rewrite length_app, Hlen.
  replace (Nat.modulo (4 * ((List.length l + 2) / 3)) 4) with O
    by (rewrite Nat.mul_comm, Nat.Div0.mod_mul; reflexivity).
  cbn [Nat.eqb]. rewrite rev_app_distr.
  assert (Hhead : match rev (unpadded_chars l) with
                  | [] => True
                  | c :: _ => c <> 61%N
                  end).
  { destruct (rev (unpadded_chars l)) as [|c r] eqn:E; [exact I|].
    rewrite Forall_forall in Hall. apply (Hall c).
    apply (proj2 (in_rev _ _)).
    exact (eq_ind_r (fun x => In c x) (in_eq c r) E). }
  unfold padding. destruct (Nat.modulo (List.length l) 3) as [|[|[|k]]]; cbn [rev app].
  - rewrite app_nil_r.
    destruct (rev (unpadded_chars l)) as [|c r]; [reflexivity|].
    destruct (N.eq_dec c 61) as [->|Hc]; [contradiction|].
    destruct c as [|p]; [reflexivity|].
    repeat (destruct p as [p|p|]; try reflexivity); congruence.
  - now rewrite rev_involutive.
  - destruct (rev (unpadded_chars l)) as [|c r] eqn:E.
    + apply (f_equal (@rev _)) in E. rewrite rev_involutive in E. now rewrite E.
    + destruct (N.eq_dec c 61) as [->|Hc]; [contradiction|].
      assert (Hu : unpadded_chars l = rev (c :: r))
        by (rewrite <- E; now rewrite rev_involutive).
      destruct c as [|p]; [now rewrite Hu|].
      repeat (destruct p as [p|p|]; try (now rewrite Hu)); congruence.
  - rewrite app_nil_r.
    destruct (rev (unpadded_chars l)) as [|c r]; [reflexivity|].
    destruct (N.eq_dec c 61) as [->|Hc]; [contradiction|].
    destruct c as [|p]; [reflexivity|].
    repeat (destruct p as [p|p|]; try reflexivity); congruence.
Qed.

Lemma sextets_cons n s sx :
  (n < 64)%N -> Base64.sextets s = Some sx ->
  Base64.sextets (Base64.char_of n :: s) = Some (n :: sx).
Proof.
  intros Hn Hs. cbn [Base64.sextets]. now rewrite sextet_of_char_of, Hs.
Qed.

Lemma sextets_unpadded l :
  Forall (fun b => (b < 256)%N) l ->
  exists sx, Base64.sextets (unpadded_chars l) = Some sx
             /\ Base64.bytes_of_sextets sx = l.
Proof.
  induction l as [| a | a b | a b c rest IH] using list_ind3; intros Hall.
  - exists []. split; reflexivity.
  - inversion Hall as [|? ? Ha _]; subst.
    exists [(a * 16 / 64)%N; N.modulo (a * 16) 64].
    split.
    + cbn [unpadded_chars].
      repeat (apply sextets_cons; [lia|]). reflexivity.
    + cbn [Base64.bytes_of_sextets]. f_equal. lia.
  - inversion Hall as [|? ? Ha Hall']; subst.
    inversion Hall' as [|? ? Hb _]; subst.
    exists [((a * 256 + b) * 4 / 4096)%N; N.modulo ((a * 256 + b) * 4 / 64) 64;
            N.modulo ((a * 256 + b) * 4) 64].
    split.
    + cbn [unpadded_chars].
      repeat (apply sextets_cons; [lia|]). reflexivity.
    + cbn [Base64.bytes_of_sextets]. f_equal; [lia | f_equal; lia].
  - inversion Hall as [|? ? Ha Hall1]; subst.
    inversion Hall1 as [|? ? Hb Hall2]; subst.
    inversion Hall2 as [|? ? Hc Hall3]; subst.
    destruct (IH Hall3) as (sx & Hsx & Hbytes).
    set (n := ((a * 256 + b) * 256 + c)%N).
    exists ((n / 262144)%N :: N.modulo (n / 4096) 64 :: N.modulo (n / 64) 64
            :: N.modulo n 64 :: sx).
    split.
    + cbn [unpadded_chars]. fold n.
      repeat (apply sextets_cons; [subst n; lia|]). exact Hsx.
    + cbn [Base64.bytes_of_sextets]. rewrite Hbytes. subst n.
      f_equal; [lia | f_equal; [lia | f_equal; lia]].
Qed.

(** [atob(btoa(s))] is [s], for every binary string [s]. *)
Lemma atob_btoa (bytes : list N) :
  Forall (fun b => (b < 256)%N) bytes ->
  Base64.btoa bytes = Normal (Base64.chars_of_bytes bytes)
  /\ Base64.atob (Base64.chars_of_bytes bytes) = Normal bytes.
Proof.
  intros Hall. split.
  - unfold Base64.btoa.
    replace (forallb (fun c => (c <? 256)%N) bytes) with true; [reflexivity|].
    symmetry. apply forallb_forall. rewrite Forall_forall in Hall.
    intros x Hx. apply N.ltb_lt. now apply Hall.
  - unfold Base64.atob.
    destruct (unpadded_chars_facts bytes) as (Hu & _ & Hmod).
    rewrite filter_keeps.
    + rewrite strip_padding_chars.
      destruct (Nat.eqb_spec (Nat.modulo (List.length (unpadded_chars bytes)) 4) 1);
        [contradiction|].
      destruct (sextets_unpadded bytes Hall) as (sx & -> & ->). reflexivity.
    + rewrite chars_of_bytes_split. apply Forall_app. split.
      * eapply Forall_impl; [|exact Hu]. intros c [_ Hc]. cbn. now rewrite Hc.
      * unfold padding. destruct (Nat.modulo (List.length bytes) 3) as [|[|[|k]]];
          repeat constructor.
Qed.

(* ===================================================================== *)
(** ** The PCM codec: properties                                          *)
(* ===================================================================== *)

Lemma ToInt16_range x : -32768 <= ToInt16 x < 32768.
Proof.
  unfold ToInt16.
  set (n := Z.quot (Qnum x) (Zpos (Qden x))). clearbody n.
  destruct (Z.ltb_spec (n mod 65536) 32768); lia.
Qed.

Lemma ToInt16_in_range x :
  -32768 <= Z.quot (Qnum x) (Zpos (Qden x)) < 32768 ->
  ToInt16 x = Z.quot (Qnum x) (Zpos (Qden x)).
Proof.
  unfold ToInt16.
  set (n := Z.quot (Qnum x) (Zpos (Qden x))). clearbody n. intros Hn.
  destruct (Z.ltb_spec (n mod 65536) 32768); lia.
Qed.

Lemma forallb_Forall_bytes (l : list N) :
  forallb (fun c => (c <? 256)%N) l = true -> Forall (fun b => (b < 256)%N) l.
Proof.
  intros H. rewrite forallb_forall in H. apply Forall_forall.
  intros x Hx. apply N.ltb_lt. now apply H.
Qed.

Lemma pcm_bytes_are_bytes samples : Forall (fun b => (b < 256)%N) (pcm_bytes samples).
Proof. apply forallb_Forall_bytes, flat_map_bytes. Qed.

Lemma pcm_bytes_length samples :
  List.length (pcm_bytes samples) = (2 * List.length samples)%nat.
Proof.
  unfold pcm_bytes. induction samples as [|x l IH]; [reflexivity|].
  cbn [map flat_map]. rewrite length_app, IH. cbn [int16_bytes List.length]. lia.
Qed.

(** The view of the bytes of 16-bit values is those values. *)
Lemma int16_pairs_bytes (l : list Z) :
  Forall (fun v => -32768 <= v < 32768) l ->
  int16_pairs (flat_map int16_bytes l) = Some l.
Proof.
  induction 1 as [|v l Hv _ IH]; [reflexivity|].
  cbn [flat_map int16_bytes app int16_pairs]. rewrite IH.
  f_equal. f_equal.
  destruct (Z.ltb_spec (Z.of_N (Z.to_N ((v mod 65536) mod 256))
                        + 256 * Z.of_N (Z.to_N (v mod 65536 / 256))) 32768); lia.
Qed.

Lemma pcm_int16_range samples :
  Forall (fun v => -32768 <= v < 32768) (map pcm_int16 samples).
Proof.
  induction samples; constructor; [apply ToInt16_range | assumption].
Qed.

Lemma decode_chars_of_bytes bytes :
  Forall (fun b => (b < 256)%N) bytes ->
  decode (Base64.chars_of_bytes bytes) = Normal bytes.
Proof.
  intros H. unfold decode. rewrite (proj2 (atob_btoa bytes H)). f_equal.
  induction H as [|b l Hb _ IH]; [reflexivity|].
  cbn [map]. rewrite IH. f_equal. now apply N.mod_small.
Qed.

Lemma createBlob_pcm_blob samples : createBlob samples = Normal (pcm_blob samples).
Proof.
  unfold createBlob. fold pcm_int16. fold (pcm_bytes samples).
  now rewrite (proj1 (atob_btoa _ (pcm_bytes_are_bytes samples))).
Qed.

Lemma map_nth_seq (A B : Type) (f : A -> B) (d : A) (l : list A) :
  map (fun i => f (nth (i * 1 + 0) l d)) (seq 0 (List.length l)) = map f l.
Proof.
  induction l as [|a l IH]; [reflexivity|].
  cbn [List.length]. rewrite <- cons_seq, <- seq_shift, map_cons, map_map.
  cbn [Nat.mul Nat.add nth]. rewrite IH. reflexivity.
Qed.

Lemma decodeAudioData_mono_of_int16 data ints rate :
  int16_pairs data = Some ints -> ints <> [] ->
  decodeAudioData data rate 1
  = Normal {| numberOfChannels := 1; frames := List.length ints; sampleRate := rate;
              channelData := [map pcm_sample ints] |}.
Proof.
  intros Hp Hne. unfold decodeAudioData, new_Int16Array, createBuffer. rewrite Hp.
  rewrite Nat.div_1_r.
  destruct ints as [|v ints]; [congruence|].
  cbn [Nat.eqb List.length orb numberOfChannels frames sampleRate].
  f_equal. f_equal. cbn [seq map]. f_equal.
  change (S (List.length ints)) with (List.length (v :: ints)).
  apply (map_nth_seq Z Q (fun z => Qmake z 32768) 0 (v :: ints)).
Qed.

(** X1. [createBlob] never fails, and [decode] reads its payload back
    as two bytes for each sample, the 16-bit value of the sample in
    little-endian order, which the 16-bit view of [decodeAudioData]
    reads as that value again. *)
Theorem createBlob_decode :
  forall samples : list Q,
    createBlob samples = Normal (pcm_blob samples)
    /\ mimeType (pcm_blob samples) = js "audio/pcm;rate=16000"
    /\ decode (data (pcm_blob samples)) = Normal (pcm_bytes samples)
    /\ List.length (pcm_bytes samples) = (2 * List.length samples)%nat
    /\ new_Int16Array (pcm_bytes samples) = Normal (map pcm_int16 samples).
Proof.
  intros samples. split; [apply createBlob_pcm_blob|].
  split; [reflexivity|].
  split; [apply decode_chars_of_bytes, pcm_bytes_are_bytes|].
  split; [apply pcm_bytes_length|].
  unfold new_Int16Array, pcm_bytes.
  now rewrite int16_pairs_bytes by apply pcm_int16_range.
Qed.

(** X2. A frame that is sent and received back comes out with as many
    frames as it had samples, each sample replaced by its 16-bit value
    over 32768; this needs a frame that is not empty. *)
Theorem pcm_round_trip :
  forall (samples : list Q) (rate : positive),
    samples <> [] ->
    exists blob bytes,
      createBlob samples = Normal blob
      /\ decode (data blob) = Normal bytes
      /\ decodeAudioData bytes rate 1
         = Normal {| numberOfChannels := 1;
                     frames := List.length samples;
                     sampleRate := rate;
                     channelData := [map (fun x => pcm_sample (pcm_int16 x)) samples] |}.
Proof.
  intros samples rate Hne.
  exists (pcm_blob samples), (pcm_bytes samples).
  split; [apply createBlob_pcm_blob|].
  split; [apply decode_chars_of_bytes, pcm_bytes_are_bytes|].
  rewrite (decodeAudioData_mono_of_int16 _ (map pcm_int16 samples)).
  - rewrite length_map, map_map. reflexivity.
  - unfold pcm_bytes. apply int16_pairs_bytes, pcm_int16_range.
  - destruct samples; [congruence | discriminate].
Qed.

Lemma pcm_round_trip_witness :
  exists blob bytes,
    createBlob [1 # 2; -1 # 4]%Q = Normal blob
    /\ decode (data blob) = Normal bytes
    /\ decodeAudioData bytes 24000 1
       = Normal {| numberOfChannels := 1;
                   frames := 2;
                   sampleRate := 24000;
                   channelData := [[16384 # 32768; -8192 # 32768]%Q] |}.
Proof.
  apply (pcm_round_trip [1 # 2; -1 # 4]%Q 24000). discriminate.
Defined.

Lemma pcm_int16_quot (x : Q) :
  (-1 <= x)%Q -> (x < 1)%Q ->
  pcm_int16 x = Z.quot (Qnum x * 32768) (Zpos (Qden x))
  /\ -32768 <= Z.quot (Qnum x * 32768) (Zpos (Qden x)) < 32768.
Proof.
  destruct x as [p q]. unfold Qle, Qlt. cbn [Qnum Qden]. intros Hlo Hhi.
  assert (Hr : -32768 <= Z.quot (p * 32768) (Zpos q) < 32768).
  { pose proof (Z.quot_rem' (p * 32768) (Zpos q)) as Hqr.
    pose proof (Z.rem_bound_abs (p * 32768) (Zpos q)) as Hb.
    assert (Hb' : Z.abs (Z.rem (p * 32768) (Zpos q)) < Zpos q) by lia.
    nia. }
  split; [|exact Hr].
  unfold pcm_int16. rewrite ToInt16_in_range; cbn [Qmult Qnum Qden];
    rewrite Pos.mul_1_r; [reflexivity | exact Hr].
Qed.

(** X3. A sample in [-1, 1) is stored as its multiple of 1/32768
    towards zero: it comes back less than 1/32768 away, no larger in
    magnitude, and unchanged when it is such a multiple. *)
Theorem sample_quantisation :
  forall x : Q,
    (-1 <= x)%Q -> (x < 1)%Q ->
    let y := pcm_sample (pcm_int16 x) in
    (Qabs (x - y) < 1 # 32768)%Q
    /\ (Qabs y <= Qabs x)%Q
    /\ (forall k : Z, (x == k # 32768)%Q -> (y == x)%Q).
Proof.
  intros x Hlo Hhi y. subst y.
  destruct (pcm_int16_quot x Hlo Hhi) as [-> Hr].
  destruct x as [p q]. cbn [Qnum Qden] in *.
  pose proof (Z.quot_rem' (p * 32768) (Zpos q)) as Hqr.
  pose proof (Z.rem_bound_abs (p * 32768) (Zpos q)) as Hb.
  assert (Hb' : Z.abs (Z.rem (p * 32768) (Zpos q)) < Zpos q) by lia.
  pose proof (Z.rem_sign_nz (p * 32768) (Zpos q)) as Hsign.
  set (n := Z.quot (p * 32768) (Zpos q)) in *.
  set (r := Z.rem (p * 32768) (Zpos q)) in *.
  unfold pcm_sample. split; [|split].
  - apply Qabs_Qlt_condition. unfold Qlt, Qminus, Qplus, Qopp.
    cbn [Qnum Qden]. split; nia.
  - unfold Qle, Qabs. cbn [Qnum Qden].
    assert (Hn : Z.abs n * Zpos q <= Z.abs p * 32768).
    { subst n. rewrite <- Z.quot_abs by lia.
      replace (Z.abs (Zpos q)) with (Zpos q) by lia.
      replace (Z.abs p * 32768) with (Z.abs (p * 32768)) by lia.
      rewrite Z.mul_comm. apply Z.mul_quot_le; lia. }
    lia.
  - intros k Hk. unfold Qeq in *. cbn [Qnum Qden] in *.
    assert (Hn : n = k); [|nia].
    subst n. rewrite Hk.
    replace (k * Zpos q) with (k * Zpos q + 0) by lia.
    rewrite Z.mul_comm. replace (Zpos q * k + 0) with (Zpos q * k) by lia.
    rewrite Z.mul_comm. apply Z.quot_mul. lia.
Qed.

Lemma sample_quantisation_witness :
  let x := (1 # 3)%Q in
  let y := pcm_sample (pcm_int16 x) in
  y = (10922 # 32768)%Q
  /\ (Qabs (x - y) < 1 # 32768)%Q
  /\ (Qabs y <= Qabs x)%Q.
Proof.
  intros x y.
  assert (Hlo : (-1 <= x)%Q) by (vm_compute; discriminate).
  assert (Hhi : (x < 1)%Q) by reflexivity.
  destruct (sample_quantisation x Hlo Hhi) as (H1 & H2 & _).
  split; [reflexivity | split; assumption].
Defined.

Lemma list_ind2 (A : Type) (P : list A -> Prop) :
  P [] -> (forall a, P [a]) -> (forall a b rest, P rest -> P (a :: b :: rest)) ->
  forall l, P l.
Proof.
  intros H0 H1 H2.
  assert (H : forall l, P l /\ forall a, P (a :: l)).
  { induction l as [|x l [IHa IHb]]; [auto|].
    split; [apply IHb | intros a; now apply H2]. }
  intros l. apply H.
Qed.

Lemma int16_pairs_spec (data : list N) :
  if Nat.even (List.length data)
  then exists l, int16_pairs data = Some l
                 /\ (2 * List.length l = List.length data)%nat
                 /\ (Forall (fun b => (b < 256)%N) data ->
                     Forall (fun v => -32768 <= v < 32768) l)
  else int16_pairs data = None.
Proof.
  induction data as [| a | a b rest IH] using list_ind2.
  - exists []. repeat split. constructor.
  - reflexivity.
  - cbn [List.length Nat.even int16_pairs].
    destruct (Nat.even (List.length rest)).
    + destruct IH as (l & -> & Hlen & Hr).
      eexists. split; [reflexivity|]. split; [cbn [List.length]; lia|].
      intros Hall. inversion Hall as [|? ? Ha Hall1]; subst.
      inversion Hall1 as [|? ? Hb Hall2]; subst.
      constructor; [|now apply Hr].
      destruct (Z.ltb_spec (Z.of_N a + 256 * Z.of_N b) 32768); lia.
    + now rewrite IH.
Qed.

Lemma pcm_sample_range v :
  -32768 <= v < 32768 -> (-1 <= pcm_sample v)%Q /\ (pcm_sample v < 1)%Q.
Proof. unfold pcm_sample, Qle, Qlt. cbn [Qnum Qden]. lia. Qed.

(** X4. What [decodeAudioData] makes of mono data, case by case: an odd
    number of bytes is a [RangeError], no byte at all a
    [NotSupportedError], and any other data a buffer of one channel
    with one frame for every two bytes, whose samples lie in [-1, 1)
    when the data are bytes. *)
Theorem decodeAudioData_outcomes :
  forall (bytes : list N) (rate : positive),
    (Nat.even (List.length bytes) = false ->
       decodeAudioData bytes rate 1 = Throw RangeError)
    /\ (bytes = [] -> decodeAudioData bytes rate 1 = Throw NotSupportedError)
    /\ (Nat.even (List.length bytes) = true -> bytes <> [] ->
        exists buffer channel,
          decodeAudioData bytes rate 1 = Normal buffer
          /\ numberOfChannels buffer = 1%nat
          /\ sampleRate buffer = rate
          /\ (2 * frames buffer = List.length bytes)%nat
          /\ channelData buffer = [channel]
          /\ List.length channel = frames buffer
          /\ (Forall (fun b => (b < 256)%N) bytes ->
              Forall (fun s => (-1 <= s)%Q /\ (s < 1)%Q) channel)).
Proof.
  intros bytes rate. pose proof (int16_pairs_spec bytes) as Hspec.
  split; [|split].
  - intros Hodd. rewrite Hodd in Hspec.
    unfold decodeAudioData, new_Int16Array. now rewrite Hspec.
  - intros ->. reflexivity.
  - intros Heven Hne. rewrite Heven in Hspec.
    destruct Hspec as (ints & Hp & Hlen & Hr).
    assert (Hints : ints <> []).
    { intros ->. destruct bytes; [congruence | discriminate]. }
    eexists. exists (map pcm_sample ints).
    split; [apply (decodeAudioData_mono_of_int16 _ _ _ Hp Hints)|].
    cbn [numberOfChannels sampleRate frames channelData].
    repeat split; try assumption; [apply length_map|].
    intros Hall. specialize (Hr Hall).
    apply Forall_map. eapply Forall_impl; [|exact Hr].
    intros v Hv. now apply pcm_sample_range.
Qed.

Lemma decodeAudioData_outcomes_witness :
  exists buffer channel,
    decodeAudioData [0; 64; 0; 192]%N 24000 1 = Normal buffer
    /\ numberOfChannels buffer = 1%nat
    /\ sampleRate buffer = 24000%positive
    /\ (2 * frames buffer = 4)%nat
    /\ channelData buffer = [channel]
    /\ List.length channel = frames buffer
    /\ (Forall (fun b => (b < 256)%N) [0; 64; 0; 192]%N ->
        Forall (fun s => (-1 <= s)%Q /\ (s < 1)%Q) channel).
Proof.
  apply (proj2 (proj2 (decodeAudioData_outcomes [0; 64; 0; 192]%N 24000)));
    [reflexivity | discriminate].
Defined.

Lemma decode_bytes base64 bytes :
  decode base64 = Normal bytes -> Forall (fun b => (b < 256)%N) bytes.
Proof.
  unfold decode. destruct (Base64.atob base64) as [s|]; [|discriminate].
  intros [= <-]. induction s; constructor; [|assumption].
  apply N.mod_lt. discriminate.
Qed.

(** X5. A chunk that the message handler plays: its buffer lasts one
    second for every 48000 bytes that [decode] gave, which is more than
    nothing, and each of its samples lies in [-1, 1). *)
Theorem inbound_buffer :
  forall (base64Audio : jsstring) (bytes : list N) (audioBuffer : AudioBuffer),
    decode base64Audio = Normal bytes ->
    decodeAudioData bytes 24000 1 = Normal audioBuffer ->
    (duration audioBuffer == Z.of_nat (List.length bytes) # 48000)%Q
    /\ (0 < duration audioBuffer)%Q
    /\ Forall (Forall (fun s => (-1 <= s)%Q /\ (s < 1)%Q)) (channelData audioBuffer).
Proof.
  intros b bytes buf Hd Hb.
  destruct (decodeAudioData_outcomes bytes 24000) as (Hodd & Hnil & Hok).
  destruct (Nat.even (List.length bytes)) eqn:Heven;
    [|rewrite Hodd in Hb by reflexivity; discriminate].
  destruct bytes as [|b0 bytes']; [rewrite Hnil in Hb by reflexivity; discriminate|].
  destruct (Hok eq_refl) as (buf' & ch & Hb' & _ & Hrate & Hfr & Hch & _ & Hrange);
    [discriminate|].
  rewrite Hb in Hb'. injection Hb' as <-.
  split; [|split].
  - unfold duration, Qeq. cbn [Qnum Qden]. rewrite Hrate, <- Hfr. lia.
  - eapply decodeAudioData_duration; eassumption.
  - rewrite Hch. constructor; [|constructor].
    apply Hrange. eapply decode_bytes; eassumption.
Qed.

Lemma inbound_buffer_witness :
  exists audioBuffer,
    decodeAudioData [0; 0; 0; 0; 0; 0]%N 24000 1 = Normal audioBuffer
    /\ (duration audioBuffer == 6 # 48000)%Q
    /\ (0 < duration audioBuffer)%Q.
Proof.
  assert (Hd : decode (js "AAAAAAAA") = Normal [0; 0; 0; 0; 0; 0]%N)
    by (vm_compute; reflexivity).
  destruct (decodeAudioData [0; 0; 0; 0; 0; 0]%N 24000 1) as [buf|] eqn:E;
    [|vm_compute in E; discriminate].
  exists buf. split; [reflexivity|].
  destruct (inbound_buffer _ _ _ Hd E) as (H1 & H2 & _). split; assumption.
Defined.

(* ===================================================================== *)
(** ** Runs of the client                                                 *)
(* ===================================================================== *)

Lemma onaudioprocess_pending samples c queue :
  sessionPromise c = Some (Pending queue) ->
  onaudioprocess samples c
  = (Normal tt, set_sessionPromise (Some (Pending (queue ++ [pcm_blob samples]))) c, []).
Proof.
  intros H. unfold onaudioprocess, mbind, lift, this.
  rewrite createBlob_pcm_blob, H. reflexivity.
Qed.

Lemma onaudioprocess_fulfilled samples c session :
  sessionPromise c = Some (Fulfilled session) ->
  onaudioprocess samples c = (Normal tt, c, [SendRealtimeInput (pcm_blob samples)]).
Proof.
  intros H. unfold onaudioprocess, mbind, lift, this.
  rewrite createBlob_pcm_blob, H. reflexivity.
Qed.

Lemma onaudioprocess_dropped samples c :
  sessionPromise c = None \/ (exists e, sessionPromise c = Some (Rejected e)) ->
  onaudioprocess samples c = (Normal tt, c, []).
Proof.
  intros [H|[e H]]; unfold onaudioprocess, mbind, lift, this;
    rewrite createBlob_pcm_blob, H; reflexivity.
Qed.

Lemma capture_pending frames : forall c queue,
  sessionPromise c = Some (Pending queue) ->
  sessionPromise (fst (capture frames c))
    = Some (Pending (queue ++ map pcm_blob frames))
  /\ snd (capture frames c) = [].
Proof.
  induction frames as [|f frames IH]; intros c queue H.
  - cbn. now rewrite app_nil_r.
  - cbn [capture]. rewrite (onaudioprocess_pending f c queue H).
    cbn [client calls fst snd].
    destruct (IH (set_sessionPromise (Some (Pending (queue ++ [pcm_blob f]))) c)
                 (queue ++ [pcm_blob f]) eq_refl) as [H1 H2].
    destruct (capture frames _) as [c' l]. cbn [fst snd] in *.
    rewrite H1, H2, <- app_assoc. split; reflexivity.
Qed.

Lemma capture_fulfilled frames : forall c session,
  sessionPromise c = Some (Fulfilled session) ->
  capture frames c = (c, map (fun f => SendRealtimeInput (pcm_blob f)) frames).
Proof.
  induction frames as [|f frames IH]; intros c session H; [reflexivity|].
  cbn [capture]. rewrite (onaudioprocess_fulfilled f c session H).
  cbn [client calls fst snd]. now rewrite (IH c session H).
Qed.

Lemma capture_dropped frames : forall c,
  sessionPromise c = None \/ (exists e, sessionPromise c = Some (Rejected e)) ->
  capture frames c = (c, []).
Proof.
  induction frames as [|f frames IH]; intros c H; [reflexivity|].
  cbn [capture]. rewrite (onaudioprocess_dropped f c H).
  cbn [client calls fst snd]. now rewrite (IH c H).
Qed.

(** X6. Frames on their way out keep their order and are sent once
    each: those captured while the stream is opening are sent, after
    what was queued before them, when it opens, and those captured
    after that follow; while it is opening nothing is sent. *)
Theorem outbound_in_order :
  forall (c : LiveClient) (queue : list Blob) (before after : list (list Q))
         (session : Session),
    sessionPromise c = Some (Pending queue) ->
    let opening := capture before c in
    let opened := settle (Normal session) (fst opening) in
    let open := capture after (client opened) in
    snd opening = []
    /\ calls opened ++ snd open
       = map SendRealtimeInput (queue ++ map pcm_blob before ++ map pcm_blob after).
Proof.
  intros c queue before after session H opening opened open.
  destruct (capture_pending before c queue H) as [Hp Hl].
  fold opening in Hp, Hl. split; [exact Hl|].
  subst opened open. unfold settle, mbind, this, assign, platform_each.
  rewrite Hp. cbn [client calls fst snd app].
  rewrite (capture_fulfilled after _ session) by reflexivity.
  cbn [snd]. rewrite !map_app, !map_map, ?app_nil_r, <- ?app_assoc. reflexivity.
Qed.

Lemma outbound_in_order_witness :
  let opening := capture [[1 # 2]; [-1 # 2]]%Q connected in
  let opened := settle (Normal LiveSession) (fst opening) in
  let open := capture [[0]]%Q (client opened) in
  snd opening = []
  /\ calls opened ++ snd open
     = map SendRealtimeInput
         ([] ++ map pcm_blob [[1 # 2]; [-1 # 2]]%Q ++ map pcm_blob [[0]]%Q).
Proof.
  apply (outbound_in_order connected [] [[1 # 2]; [-1 # 2]]%Q [[0]]%Q LiveSession).
  vm_compute. reflexivity.
Defined.

Lemma disconnect_completed c settled :
  result (disconnect settled c) = Normal tt ->
  sessionPromise (client (disconnect settled c)) = None.
Proof.
  destruct c as [sp ic oc nst srcs st pr isrc al].
  destruct sp as [[q|s|e]|]; [destruct settled as [s|e] | | |];
    run_disconnect; cbn; try discriminate; intros _;
    destruct st as [[tr]|], ic as [[ir icl]|], oc as [[or ocl]|]; reflexivity.
Qed.

(** X7. After a [disconnect] that completed, every frame is dropped:
    the capture callbacks that still fire send nothing and leave the
    client as it is. *)
Theorem capture_after_disconnect :
  forall (c : LiveClient) (settled : completion Session) (frames : list (list Q)),
    result (disconnect settled c) = Normal tt ->
    capture frames (client (disconnect settled c))
    = (client (disconnect settled c), []).
Proof.
  intros c settled frames H. apply capture_dropped. left.
  now apply disconnect_completed.
Qed.

Lemma capture_after_disconnect_witness :
  let c := client (disconnect (Normal LiveSession) connected) in
  capture [[1 # 2]; [1 # 4]]%Q c = (c, []).
Proof.
  apply (capture_after_disconnect connected (Normal LiveSession)).
  vm_compute. reflexivity.
Defined.

Lemma perform_cursor a c :
  (nextStartTime c <= nextStartTime (client (perform a c)))%Q
  /\ (is_message a = false -> nextStartTime (client (perform a c)) = nextStartTime c).
Proof.
  destruct a as [newContext userMedia | r | inputData | t m | id | settled];
    cbn [perform is_message].
  - assert (H : nextStartTime (client (connect newContext userMedia c)) = nextStartTime c).
    { unfold connect, mbind, mret, this, assign, lift, platform, client.
      destruct (newContext 16000%positive); [|reflexivity].
      destruct (newContext 24000%positive); [|reflexivity].
      destruct userMedia; reflexivity. }
    rewrite H. split; [apply Qle_refl | reflexivity].
  - assert (H : nextStartTime (client (settle r c)) = nextStartTime c).
    { unfold settle, mbind, mret, this, assign, platform_each, client.
      destruct (sessionPromise c) as [[q|s|e]|]; destruct r; reflexivity. }
    rewrite H. split; [apply Qle_refl | reflexivity].
  - assert (H : nextStartTime (client (onaudioprocess inputData c)) = nextStartTime c).
    { unfold onaudioprocess, mbind, lift, this. rewrite createBlob_pcm_blob.
      destruct (sessionPromise c) as [[q|s|e]|]; reflexivity. }
    rewrite H. split; [apply Qle_refl | reflexivity].
  - split; [|discriminate].
    destruct (onmessage_cursor t m c) as [[_ H]|(d & Hd & _ & H)]; [exact H|].
    rewrite H. eapply Qle_trans; [apply (Q.le_max_l (nextStartTime c) t)|].
    rewrite <- (Qplus_0_r (Qmax (nextStartTime c) t)) at 1.
    apply Qplus_le_r. now apply Qlt_le_weak.
  - split; [apply Qle_refl | reflexivity].
  - assert (H : nextStartTime (client (disconnect settled c)) = nextStartTime c).
    { destruct c as [sp ic oc nst srcs st pr isrc al].
      destruct sp as [[q|s|e]|]; [destruct settled as [s|e] | | |];
        run_disconnect; cbn;
        destruct st as [[tr]|], ic as [[ir icl]|], oc as [[or ocl]|]; reflexivity. }
    rewrite H. split; [apply Qle_refl | reflexivity].
Qed.

(** X8. The cursor of the playback never moves back, whatever happens
    to the client and in whatever order, and nothing but a message moves
    it: neither [disconnect] nor a later [connect] sets it back to 0. *)
Theorem cursor_never_moves_back :
  forall (l : list action) (c : LiveClient),
    (nextStartTime c <= nextStartTime (fst (perform_all l c)))%Q
    /\ (forallb (fun a => negb (is_message a)) l = true ->
        nextStartTime (fst (perform_all l c)) = nextStartTime c).
Proof.
  induction l as [|a l IH]; intros c.
  - split; [apply Qle_refl | reflexivity].
  - cbn [perform_all forallb].
    destruct (perform_cursor a c) as [Hle Heq].
    destruct (IH (client (perform a c))) as [IHle IHeq].
    destruct (perform_all l (client (perform a c))) as [c' k]. cbn [fst] in *.
    split; [eapply Qle_trans; eassumption|].
    intros H. apply andb_true_iff in H as [Ha Hl].
    rewrite (IHeq Hl). apply Heq. now destruct (is_message a).
Qed.

Lemma cursor_never_moves_back_witness :
  let l := [DoMessage 0 (chunk_message "AAAAAAAA");
            DoDisconnect (Normal LiveSession);
            DoConnect fresh_context microphone] in
  nextStartTime (fst (perform_all l connected)) = (3 # 24000)%Q
  /\ nextStartTime (fst (perform_all (tl l) (fst (perform_all [hd (DoEnded 0) l] connected))))
     = nextStartTime (fst (perform_all [hd (DoEnded 0) l] connected)).
Proof.
  intros l. split; [vm_compute; reflexivity|].
  apply (proj2 (cursor_never_moves_back (tl l) _)). reflexivity.
Defined.

(** X9. The two directions do not touch each other: a capture callback
    and a message handler leave the same client behind in either order,
    and each does and returns what it would have without the other. *)
Theorem capture_and_playback_commute :
  forall (c : LiveClient) (inputData : list Q) (t : Q) (m : LiveServerMessage),
    let sent := onaudioprocess inputData c in
    let played := onmessage t m c in
    client (onmessage t m (client sent)) = client (onaudioprocess inputData (client played))
    /\ result (onmessage t m (client sent)) = result played
    /\ calls (onmessage t m (client sent)) = calls played
    /\ result (onaudioprocess inputData (client played)) = result sent
    /\ calls (onaudioprocess inputData (client played)) = calls sent.
Proof.
  intros c inputData t m sent played. subst sent played.
  destruct c as [sp ic oc nst srcs st pr isrc al].
  unfold onaudioprocess, onmessage, transcribe, play, play_begin, play_finish,
    mbind, mret, lift, this, assign, platform.
  rewrite createBlob_pcm_blob. cbn [sessionPromise outputAudioContext].
  destruct (truthy (transcription_text (inputTranscription m))
            || truthy (transcription_text (outputTranscription m)));
    destruct sp as [[queue|session|reason]|];
    (destruct (inlineData m) as [b|], oc as [ctx|];
       [destruct (truthy b);
          [destruct (decode b) as [bytes|];
             [destruct (decodeAudioData bytes 24000 1) as [buf|]|] |] | | | ]);
    cbn; repeat split; reflexivity.
Qed.

(* ===================================================================== *)
(** ** The caller of the client: [toggleLive]                             *)
(* ===================================================================== *)

Lemma connect_calls_keep newContext userMedia c :
  filter is_release (calls (connect newContext userMedia c)) = [].
Proof.
  unfold connect, mbind, mret, this, assign, lift, platform, calls.
  destruct (newContext 16000%positive); [|reflexivity].
  destruct (newContext 24000%positive); [|reflexivity].
  destruct userMedia; reflexivity.
Qed.

(** X10. When [connect] fails inside [toggleLive], the handler itself
    completes: the user is alerted, the assistant stays disconnected and
    keeps no reference to the client it made, and nothing of what
    [connect] had acquired on that client is released. *)
Theorem toggleLive_discards_failed_client :
  forall (newContext : positive -> completion AudioContext)
         (userMedia : completion MediaStream) (settled : completion Session)
         (a : Assistant) (e : exn),
    isLiveConnected a = false ->
    result (connect newContext userMedia new_LiveClient) = Throw e ->
    exists a',
      toggleLive newContext userMedia settled a
      = (Normal tt, a', calls (connect newContext userMedia new_LiveClient),
         [LoggedError e; Alert CONNECT_ALERT])
      /\ isLiveConnected a' = false
      /\ liveClient a' = liveClient a
      /\ filter is_release (calls (connect newContext userMedia new_LiveClient)) = []
      /\ In (NewAudioContext 16000) (calls (connect newContext userMedia new_LiveClient)).
Proof.
  intros newContext userMedia settled a e Hoff Hfail.
  unfold toggleLive. rewrite Hoff, Hfail.
  eexists. split; [reflexivity|]. cbn [isLiveConnected liveClient].
  repeat split; [apply connect_calls_keep|].
  unfold connect, mbind, mret, this, assign, lift, platform, calls.
  destruct (newContext 16000%positive); [|now left].
  destruct (newContext 24000%positive); [|now left].
  destruct userMedia; now left.
Qed.

Lemma toggleLive_discards_failed_client_witness :
  let a := {| isLiveConnected := false; liveClient := None; liveTranscript := None |} in
  exists a',
    toggleLive fresh_context (Throw NotAllowedError) (Normal LiveSession) a
    = (Normal tt, a',
       calls (connect fresh_context (Throw NotAllowedError) new_LiveClient),
       [LoggedError NotAllowedError; Alert CONNECT_ALERT])
    /\ isLiveConnected a' = false
    /\ liveClient a' = liveClient a
    /\ filter is_release
         (calls (connect fresh_context (Throw NotAllowedError) new_LiveClient)) = []
    /\ In (NewAudioContext 16000)
          (calls (connect fresh_context (Throw NotAllowedError) new_LiveClient)).
Proof.
  intros a.
  apply (toggleLive_discards_failed_client fresh_context (Throw NotAllowedError)
           (Normal LiveSession) a NotAllowedError); reflexivity.
Defined.

Lemma disconnect_rejected c settled e :
  sessionPromise c = Some (Rejected e) ->
  disconnect settled c = (Throw e, c, []).
Proof.
  intros H. unfold disconnect, close_session, await_session, mbind, this, lift.
  rewrite H. reflexivity.
Qed.

(** X11. An assistant that shows the session as connected while the
    stream has failed to open cannot leave that state: [toggleLive]
    throws the error of the stream, changes nothing and releases
    nothing, however often it is tried. *)
Theorem toggleLive_stuck :
  forall (newContext : positive -> completion AudioContext)
         (userMedia : completion MediaStream) (settled : completion Session)
         (a : Assistant) (c : LiveClient) (e : exn),
    isLiveConnected a = true ->
    liveClient a = Some c ->
    sessionPromise c = Some (Rejected e) ->
    toggleLive newContext userMedia settled a = (Throw e, a, [], [])
    /\ forall n, toggle_times n newContext userMedia settled a = a.
Proof.
  intros newContext userMedia settled a c e Hon Hc Hp.
  assert (H : toggleLive newContext userMedia settled a = (Throw e, a, [], [])).
  { unfold toggleLive. rewrite Hon, Hc, (disconnect_rejected c settled e Hp).
    cbn [result client calls fst snd].
    destruct a as [on cl tr]. cbn in *. subst. reflexivity. }
  split; [exact H|].
  induction n as [|n IH]; [reflexivity|].
  cbn [toggle_times]. rewrite H. exact IH.
Qed.

Lemma toggleLive_stuck_witness :
  let a := {| isLiveConnected := true;
              liveClient := Some (client (settle (Throw NetworkError) connected));
              liveTranscript := None |} in
  toggleLive fresh_context microphone (Normal LiveSession) a
    = (Throw NetworkError, a, [], [])
  /\ forall n, toggle_times n fresh_context microphone (Normal LiveSession) a = a.
Proof.
  intros a.
  apply (toggleLive_stuck fresh_context microphone (Normal LiveSession) a
           (client (settle (Throw NetworkError) connected)) NetworkError);
    reflexivity.
Defined.

(** X12. Switching the live session on and then off, with every
    acquisition succeeding and the stream opening: both handlers
    complete without a notice, the assistant is disconnected again
    without client or transcript, and the second handler closes the
    session, stops every track and closes both contexts, in this
    order. *)
Theorem toggleLive_on_off :
  forall (newContext : positive -> completion AudioContext)
         (input output : AudioContext) (ms : MediaStream)
         (settled : completion Session) (session : Session) (a : Assistant),
    isLiveConnected a = false ->
    newContext 16000%positive = Normal input ->
    newContext 24000%positive = Normal output ->
    let on := toggleLive newContext (Normal ms) settled a in
    let off := toggleLive newContext (Normal ms) (Normal session) (snd (fst (fst on))) in
    fst (fst (fst on)) = Normal tt /\ snd on = []
    /\ isLiveConnected (snd (fst (fst on))) = true
    /\ fst (fst (fst off)) = Normal tt /\ snd off = []
    /\ snd (fst (fst off))
       = {| isLiveConnected := false; liveClient := None; liveTranscript := None |}
    /\ snd (fst off)
       = SessionClose :: map TrackStop (seq 0 (List.length (tracksLive ms)))
         ++ [ContextClose (contextRate input); ContextClose (contextRate output)].
Proof.
  intros newContext input output ms settled session a Hoff Hi Ho on off.
  subst on off. unfold toggleLive at 2 3 4. rewrite Hoff.
  unfold connect, mbind, mret, this, assign, lift, platform, result, client, calls.
  rewrite Hi, Ho. cbn.
  unfold toggleLive. rewrite Hoff.
  unfold connect, mbind, mret, this, assign, lift, platform, result, client, calls.
  rewrite Hi, Ho. cbn.
  run_disconnect. cbn. rewrite app_nil_r.
  repeat split; reflexivity.
Qed.

Lemma toggleLive_on_off_witness :
  let a := {| isLiveConnected := false; liveClient := None; liveTranscript := None |} in
  let on := toggleLive fresh_context microphone (Normal LiveSession) a in
  let off := toggleLive fresh_context microphone (Normal LiveSession)
               (snd (fst (fst on))) in
  snd (fst (fst off)) = a
  /\ snd (fst off)
     = [SessionClose; TrackStop 0; ContextClose 16000; ContextClose 24000].
Proof.
  intros a on off.
  destruct (toggleLive_on_off fresh_context
              {| contextRate := 16000; contextClosed := false |}
              {| contextRate := 24000; contextClosed := false |}
              {| tracksLive := [true] |} (Normal LiveSession) LiveSession a
              eq_refl eq_refl eq_refl) as (_ & _ & _ & _ & _ & H1 & H2).
  split; [exact H1 | exact H2].
Defined.

(* ===================================================================== *)
(** ** The requests: properties                                           *)
(* ===================================================================== *)

Lemma parseModelJSON_outcome JSON_parse text :
  exists v, outcome (parseModelJSON JSON_parse text) = Normal v.
Proof.
  destruct text as [|c t]; [now exists JNull|].
  destruct (Z.eq_dec (indexOf (strip_markdown (c :: t)) LBRACE) (-1)) as [E|E].
  - rewrite parseModelJSON_no_brace by assumption. now exists JNull.
  - rewrite parseModelJSON_located by (assumption || discriminate).
    apply recover_never_throws.
Qed.

Lemma parseModelJSON_null_or_object JSON_parse text v :
  (forall s w, JSON_parse (LBRACE :: s) = Normal w -> is_object w) ->
  outcome (parseModelJSON JSON_parse text) = Normal v ->
  v = JNull \/ is_object v.
Proof.
  intros Hobj Hout.
  destruct text as [|c t]; [simpl in Hout; left; congruence|].
  destruct (Z.eq_dec (indexOf (strip_markdown (c :: t)) LBRACE) (-1)) as [E|E].
  - rewrite parseModelJSON_no_brace in Hout by assumption.
    simpl in Hout. left; congruence.
  - rewrite parseModelJSON_located in Hout by (assumption || discriminate).
    destruct (substring_from_indexOf _ _ E) as [r Hr].
    unfold located in Hout. rewrite Hr in Hout.
    destruct (recover_result _ _ _ Hout) as [|(s & Hin & Hs)]; [now left|].
    pose proof (recover_attempts_braced JSON_parse r) as Hall.
    rewrite Forall_forall in Hall.
    destruct (Hall s Hin) as [s' ->]. right. eapply Hobj; eassumption.
Qed.

(** What [parseModelJSON(response.text)] gives: always a value. *)
Lemma parse_reply_resolves JSON_parse text :
  exists data,
    fst (parse_reply JSON_parse text) = Resolved data
    /\ errors_logged (snd (parse_reply JSON_parse text)) = []
    /\ match text with
       | Some s => outcome (parseModelJSON JSON_parse s) = Normal data
       | None => data = JNull
       end.
Proof.
  destruct text as [s|]; [|exists JNull; repeat split].
  destruct (parseModelJSON_outcome JSON_parse s) as [v Hv].
  exists v. unfold parse_reply, outcome in *.
  destruct (parseModelJSON JSON_parse s) as [r evs]. cbn [fst] in Hv. subst r.
  cbn [fst snd]. repeat split.
  induction evs as [|ev evs IH]; [reflexivity | exact IH].
Qed.



Local Ltac run_request :=
  unfold attempt, abind, awaiting, aret, athrow, log_error, note.



(** X14. [calculateWasteScore] never rejects, and with a decoder that
    makes only objects of a text that begins with a brace, as
    [JSON.parse] does, it resolves to [null] or to an object, never to
    a number, a string or an array; it is [null] when the call of the
    model failed, which is then logged. *)
Theorem calculateWasteScore_null_or_object :
  forall (JSON_parse : jsstring -> completion value)
         (generateContent : settlement GenerateContentResponse),
    (forall s w, JSON_parse (LBRACE :: s) = Normal w -> is_object w) ->
    exists v,
      fst (calculateWasteScore JSON_parse generateContent) = Resolved v
      /\ (v = JNull \/ is_object v)
      /\ match generateContent with
         | Resolved _ =>
             errors_logged (snd (calculateWasteScore JSON_parse generateContent)) = []
         | RejectedWith e =>
             v = JNull
             /\ snd (calculateWasteScore JSON_parse generateContent)
                = [ErrorLogged (js "Waste Score Error") e]
         end.
Proof.
  intros JSON_parse generateContent Hobj.
  destruct generateContent as [response|e].
  - destruct (parse_reply_resolves JSON_parse (responseText response))
      as (data & Hd & Hlog & Htext).
    unfold calculateWasteScore. run_request.
    destruct (parse_reply JSON_parse (responseText response)) as [r l].
    cbn [fst snd] in *. subst r. cbn. exists data.
    split; [reflexivity|]. split; [|now rewrite app_nil_r].
    destruct (responseText response) as [text|]; [|now left].
    eapply parseModelJSON_null_or_object; eassumption.
  - unfold calculateWasteScore. run_request. cbn. exists JNull. auto.
Qed.

Lemma calculateWasteScore_null_or_object_witness :
  exists v,
    fst (calculateWasteScore JSONRef.JSON_parse
           (Resolved {| responseText := Some (jsq "{'score': 87} I hope it helps.");
                        responseAudio := None; responseChunks := None |}))
    = Resolved v
    /\ (v = JNull \/ is_object v).
Proof.
  destruct (calculateWasteScore_null_or_object JSONRef.JSON_parse
              (Resolved {| responseText := Some (jsq "{'score': 87} I hope it helps.");
                           responseAudio := None; responseChunks := None |})
              JSONRef_brace_object) as (v & H1 & H2 & _).
  exists v. split; assumption.
Defined.


(** X16. [generateSpeech] resolves exactly when the reply carries a
    piece of audio that is not empty and that [atob] accepts, and then
    to the bytes that [decode] makes of it, with nothing logged.  In
    every other case it rejects, with the error of the call, with the
    exception of [atob], or with "No audio data returned", and that
    error is logged once before. *)
Theorem generateSpeech_outcome :
  forall generateContent : settlement GenerateContentResponse,
    match fst (generateSpeech generateContent) with
    | Resolved bytes =>
        snd (generateSpeech generateContent) = []
        /\ exists response base64Audio,
             generateContent = Resolved response
             /\ responseAudio response = Some base64Audio
             /\ base64Audio <> []
             /\ decode base64Audio = Normal bytes
    | RejectedWith e =>
        snd (generateSpeech generateContent) = [ErrorLogged (js "TTS Error:") e]
        /\ match generateContent with
           | RejectedWith e' => e = e'
           | Resolved response =>
               match responseAudio response with
               | Some (c :: s) => exists x, decode (c :: s) = Throw x /\ e = Raised x
               | _ => e = Error (js "No audio data returned")
               end
           end
    end.
Proof.
  intros [response|e]; unfold generateSpeech; run_request; cbn; [|auto].
  destruct (responseAudio response) as [[|c s]|] eqn:E; cbn; auto.
  destruct (Base64.atob (c :: s)) as [b|x] eqn:Ea; cbn.
  - split; [reflexivity|]. exists response, (c :: s).
    split; [reflexivity | split; [exact E | split; [discriminate|]]].
    unfold decode. now rewrite Ea.
  - split; [reflexivity|]. exists x. unfold decode. now rewrite Ea.
Qed.

(* ===================================================================== *)
(** ** [analyzeFridgeImage]                                               *)
(* ===================================================================== *)




Lemma category_of_listed toLowerCase key : In (category_of toLowerCase key) CATEGORIES.
Proof.
  unfold category_of, CATEGORIES.
  repeat match goal with
         | |- context [if ?b then _ else _] => destruct b; [simpl; tauto|]
         end.
  simpl; tauto.
Qed.

Lemma push_items_spec toUpperCase category (Hc : In category CATEGORIES) names :
  forall acc,
    (Forall is_string names ->
       exists items,
         push_items toUpperCase category names acc = Resolved (acc ++ items)
         /\ Forall2 (item_of_name toUpperCase) items names)
    /\ (~ Forall is_string names ->
          push_items toUpperCase category names acc = RejectedWith TypeError).
Proof.
  induction names as [|name names IH]; intros acc.
  - split.
    + intros _. exists []. rewrite app_nil_r. split; [reflexivity | constructor].
    + intros H. exfalso. apply H. constructor.
  - cbn [push_items]. destruct name as [|b|q|s|xs|props];
      try (split; [intros H; inversion H as [|? ? Hs _]; destruct Hs | reflexivity]).
    cbn [cleanName].
    destruct (IH (acc ++ [fridge_item (toUpperCase (firstn 1 s) ++ skipn 1 s) category]))
      as [IHok IHbad].
    split.
    + intros H. inversion H as [|? ? _ Hrest]; subst.
      destruct (IHok Hrest) as (items & -> & Hitems).
      exists (fridge_item (toUpperCase (firstn 1 s) ++ skipn 1 s) category :: items).
      rewrite <- app_assoc. split; [reflexivity|].
      constructor; [|exact Hitems]. exists s, category. auto.
    + intros H. apply IHbad. intros Hrest. apply H. constructor; [exact I | exact Hrest].
Qed.

Lemma map_categories_spec toLowerCase toUpperCase entries :
  forall acc,
    (Forall is_string (listed_names entries) ->
       exists items,
         map_categories toLowerCase toUpperCase entries acc = Resolved (acc ++ items)
         /\ Forall2 (item_of_name toUpperCase) items (listed_names entries))
    /\ (~ Forall is_string (listed_names entries) ->
          map_categories toLowerCase toUpperCase entries acc = RejectedWith TypeError).
Proof.
  induction entries as [|[key v] entries IH]; intros acc.
  - split.
    + intros _. exists []. rewrite app_nil_r. split; [reflexivity | constructor].
    + intros H. exfalso. apply H. constructor.
  - cbn [map_categories listed_names].
    destruct v as [|b|q|s|names|props]; try apply IH.
    destruct (push_items_spec toUpperCase (category_of toLowerCase key)
                (category_of_listed toLowerCase key) names acc) as [Pok Pbad].
    split.
    + intros H. apply Forall_app in H as [Hn Hrest].
      destruct (Pok Hn) as (items1 & -> & H1).
      destruct (proj1 (IH (acc ++ items1)) Hrest) as (items2 & -> & H2).
      exists (items1 ++ items2). rewrite app_assoc. split; [reflexivity|].
      now apply Forall2_app.
    + intros H. destruct (Forall_dec is_string) with (l := names) as [Hn|Hn].
      * intros v; destruct v; cbn; auto.
      * destruct (Pok Hn) as (items1 & -> & _).
        apply (proj2 (IH (acc ++ items1))). intros Hrest.
        apply H. apply Forall_app. split; assumption.
      * now rewrite (Pbad Hn).
Qed.




(** The result of [analyzeFridgeImage] when the image is resized and the
    model has replied. *)
Lemma analyze_resolved JSON_parse toLowerCase toUpperCase onProgress img response data :
  fst (parse_reply JSON_parse (responseText response)) = Resolved data ->
  fst (analyzeFridgeImage JSON_parse toLowerCase toUpperCase onProgress
         (Resolved img) (Resolved response))
  = if negb (truthy_value data) then Resolved []
    else
      let fallback := match data with
                      | JArray items => Resolved (map spread_unprioritized items)
                      | _ => Resolved []
                      end in
      match get_property data (js "categories") with
      | Some categories =>
          if truthy_value categories
          then map_categories toLowerCase toUpperCase (own_enumerable categories) []
          else fallback
      | None => fallback
      end.
Proof.
  intros Hp. unfold analyzeFridgeImage, progress. run_request.
  destruct (parse_reply JSON_parse (responseText response)) as [r l].
  cbn [fst] in Hp. subst r.
  destruct onProgress; cbn [fst snd app];
    (destruct (truthy_value data); cbn [negb]; [|reflexivity]);
    (destruct (get_property data (js "categories")) as [cats|];
       [destruct (truthy_value cats) eqn:Hc;
          [destruct cats; try discriminate Hc; cbn [Object_entries];
           match goal with
           | |- context [map_categories ?a ?b ?c ?d] =>
               destruct (map_categories a b c d); reflexivity
           end
          | destruct data; reflexivity]
       | destruct data; reflexivity]).
Qed.




(** X19. With a decoder that makes only objects of a text that begins
    with a brace, as [JSON.parse] does, everything that
    [analyzeFridgeImage] resolves to passes [isFridgeItem] and is an
    item with a name, one of the eight categories, and not prioritized:
    the branch for a reply that is an array is never taken. *)
Theorem analyzeFridgeImage_returns_items :
  forall (JSON_parse : jsstring -> completion value)
         (toLowerCase toUpperCase : jsstring -> jsstring) (onProgress : bool)
         (resized : settlement jsstring)
         (generateContent : settlement GenerateContentResponse)
         (items : list value),
    (forall s w, JSON_parse (LBRACE :: s) = Normal w -> is_object w) ->
    fst (analyzeFridgeImage JSON_parse toLowerCase toUpperCase onProgress
           resized generateContent) = Resolved items ->
    Forall (fun item =>
              isFridgeItem item = true
              /\ exists name category,
                   In category CATEGORIES /\ item = fridge_item name category)
           items.
Proof.
  intros JSON_parse toLowerCase toUpperCase onProgress resized generateContent items
         Hobj Hr.
  destruct resized as [img|e];
    [|unfold analyzeFridgeImage in Hr; revert Hr; run_request;
      destruct onProgress; cbn; discriminate].
  destruct generateContent as [response|e];
    [|unfold analyzeFridgeImage in Hr; revert Hr; run_request;
      destruct onProgress; cbn; discriminate].
  destruct (parse_reply_resolves JSON_parse (responseText response))
    as (data & Hp & _ & Htext).
  assert (Hdata : data = JNull \/ is_object data).
  { destruct (responseText response) as [text|]; [|now left].
    eapply parseModelJSON_null_or_object; eassumption. }
  rewrite (analyze_resolved _ _ _ _ _ _ _ Hp) in Hr.
  destruct Hdata as [->|Hdata]; [cbn in Hr; injection Hr as <-; constructor|].
  destruct data as [| | | | |props]; try contradiction.
  cbn [truthy_value negb] in Hr. cbv zeta in Hr.
  destruct (get_property (JObject props) (js "categories")) as [cats|] eqn:Ec;
    [|injection Hr as <-; constructor].
  destruct (truthy_value cats) eqn:Hcat; [|injection Hr as <-; constructor].
  destruct (map_categories_spec toLowerCase toUpperCase (own_enumerable cats) [])
    as [Hok Hbad].
  destruct (Forall_dec is_string) with (l := listed_names (own_enumerable cats))
    as [Hn|Hn].
  - intros v; destruct v; cbn; auto.
  - destruct (Hok Hn) as (items' & Hi & H2). rewrite Hi in Hr.
    injection Hr as <-. cbn [app].
    clear - H2. induction H2 as [|item name items names H _ IH]; constructor;
      [|exact IH].
    destruct H as (s & category & _ & Hc & ->).
    split; [reflexivity | eauto].
  - rewrite (Hbad Hn) in Hr. discriminate.
Qed.

Lemma analyzeFridgeImage_returns_items_witness :
  Forall (fun item =>
            isFridgeItem item = true
            /\ exists name category,
                 In category CATEGORIES /\ item = fridge_item name category)
         [fridge_item (js "Milk") (js "Dairy")].
Proof.
  apply (analyzeFridgeImage_returns_items JSONRef.JSON_parse ascii_lower ascii_upper
           true (Resolved (js "AAAA")) (reply "{'categories': {'dairy': ['milk']}}")
           _ JSONRef_brace_object).
  vm_compute. reflexivity.
Defined.

(* ===================================================================== *)
(** ** More on the parser                                                 *)
(* ===================================================================== *)

Lemma indexOf_from_app c prefix rest : forall i,
  ~ In c prefix ->
  indexOf_from c i (prefix ++ c :: rest) = i + Z.of_nat (List.length prefix).
Proof.
  induction prefix as [|x prefix IH]; intros i Hn.
  - cbn. rewrite N.eqb_refl. lia.
  - cbn [app indexOf_from List.length].
    destruct (N.eqb_spec x c) as [->|_]; [exfalso; apply Hn; now left|].
    rewrite IH; [lia | intros H; apply Hn; now right].
Qed.

Lemma located_after_prefix text prefix rest :
  strip_markdown text = prefix ++ LBRACE :: rest -> ~ In LBRACE prefix ->
  located text = LBRACE :: rest
  /\ indexOf (strip_markdown text) LBRACE <> -1.
Proof.
  intros Hs Hn. unfold located, indexOf. rewrite Hs, indexOf_from_app by assumption.
  split; [|lia].
  unfold substring_from, clamp. rewrite length_app. cbn [List.length].
  replace (Nat.min (Z.to_nat (0 + Z.of_nat (List.length prefix)))
             (List.length prefix + S (List.length rest)))
    with (List.length prefix) by lia.
  rewrite skipn_app, Nat.sub_diag, skipn_all. reflexivity.
Qed.

Lemma find_balanced_end_app s t : forall i b,
  find_balanced_end i b s <> -1 ->
  find_balanced_end i b (s ++ t) = find_balanced_end i b s.
Proof.
  induction s as [|x s IH]; intros i b; cbn [app find_balanced_end]; [congruence|].
  destruct (N.eqb x LBRACE); [apply IH|].
  destruct (N.eqb x RBRACE); [|apply IH].
  destruct (b - 1 =? 0); [reflexivity | apply IH].
Qed.

Lemma substring_prefix s t :
  substring (s ++ t) 0 (Z.of_nat (List.length s)) = s.
Proof.
  unfold substring, clamp. rewrite length_app.
  replace (Z.to_nat 0) with O by reflexivity.
  replace (Nat.min (Z.to_nat (Z.of_nat (List.length s))) (List.length s + List.length t))
    with (List.length s) by lia.
  rewrite !Nat.min_0_l, Nat.max_0_l, Nat.sub_0_r. cbn [skipn].
  rewrite firstn_app, Nat.sub_diag, firstn_all. cbn [firstn]. now rewrite app_nil_r.
Qed.

(** X20. A reply made of words without a brace, then a text that begins
    with a brace, balances its braces at its last code unit and not
    before, and decodes to [v], then anything that makes the whole fail
    to decode: the parser returns [v], at the second attempt. *)
Theorem trailing_text_recovered :
  forall (JSON_parse : jsstring -> completion value)
         (text prefix object suffix : jsstring) (v : value) (e : exn),
    strip_markdown text = prefix ++ (LBRACE :: object) ++ suffix ->
    ~ In LBRACE prefix ->
    find_balanced_end 0 0 (LBRACE :: object) = Z.of_nat (List.length object) ->
    JSON_parse ((LBRACE :: object) ++ suffix) = Throw e ->
    JSON_parse (LBRACE :: object) = Normal v ->
    parseModelJSON JSON_parse text
    = (Normal v, [Decode ((LBRACE :: object) ++ suffix); Decode (LBRACE :: object)]).
Proof.
  intros JSON_parse text prefix object suffix v e Hs Hn Hbal Hfail Hok.
  destruct (located_after_prefix text prefix (object ++ suffix) Hs Hn) as [Hloc Hidx].
  assert (Ht : text <> []) by (intros ->; destruct prefix; discriminate).
  rewrite parseModelJSON_located by assumption.
  rewrite Hloc. change (LBRACE :: object ++ suffix) with ((LBRACE :: object) ++ suffix).
  assert (Hend : find_balanced_end 0 0 ((LBRACE :: object) ++ suffix)
                 = Z.of_nat (List.length object)).
  { rewrite find_balanced_end_app; [exact Hbal | rewrite Hbal; lia]. }
  assert (Hpre : balanced_prefix ((LBRACE :: object) ++ suffix) = LBRACE :: object).
  { unfold balanced_prefix. rewrite Hend.
    replace (Z.of_nat (List.length object) + 1)
      with (Z.of_nat (List.length (LBRACE :: object))) by (cbn [List.length]; lia).
    apply substring_prefix. }
  unfold recover. rewrite Hfail, Hend.
  destruct (Z.eqb_spec (Z.of_nat (List.length object)) (-1)); [lia|].
  now rewrite Hpre, Hok.
Qed.

Lemma trailing_text_recovered_witness :
  parseModelJSON JSONRef.JSON_parse
    (js "Sure: " ++ js "```json" ++ jsq "{'score': 87, 'unused': ['milk']}" ++ js "```"
     ++ js " Tell me more.")
  = (Normal (JObject [(js "score", JNumber 87);
                      (js "unused", JArray [JString (js "milk")])]),
     [Decode (jsq "{'score': 87, 'unused': ['milk']} Tell me more.");
      Decode (jsq "{'score': 87, 'unused': ['milk']}")]).
Proof.
  apply (trailing_text_recovered JSONRef.JSON_parse _ (js "Sure: ")
           (jsq "'score': 87, 'unused': ['milk']}") (js " Tell me more.") _ SyntaxError).
  - vm_compute. reflexivity.
  - vm_compute. intuition discriminate.
  - vm_compute. reflexivity.
  - vm_compute. reflexivity.
  - vm_compute. reflexivity.
Defined.

(** *** No fence is left *)

Lemma remove_matches_skip p s : forall k,
  remove_matches p k s = remove_matches p O (skipn k s).
Proof.
  induction s as [|c s IH]; intros [|k]; try reflexivity.
  cbn [remove_matches skipn]. apply IH.
Qed.

Lemma remove_fence_step c s :
  starts_with FENCE (c :: s) = false ->
  remove_matches FENCE O (c :: s) = c :: remove_matches FENCE O s.
Proof. intros H. cbn [remove_matches]. now rewrite H. Qed.

Lemma remove_fence_match s :
  remove_matches FENCE O (BACKTICK :: BACKTICK :: BACKTICK :: s)
  = remove_matches FENCE O s.
Proof. reflexivity. Qed.

Lemma starts_with_fence_inv s :
  starts_with FENCE s = true -> exists s', s = BACKTICK :: BACKTICK :: BACKTICK :: s'.
Proof.
  change FENCE with [BACKTICK; BACKTICK; BACKTICK].
  destruct s as [|a [|b [|c s]]]; cbn [starts_with];
    rewrite ?andb_false_r; try discriminate.
  intros H. apply andb_true_iff in H as [Ha H]. apply andb_true_iff in H as [Hb H].
  apply andb_true_iff in H as [Hc _].
  apply N.eqb_eq in Ha, Hb, Hc. subst. now exists s.
Qed.

(** The result of removing the fences starts with a backtick only if
    the text did. *)
Lemma remove_fence_head1 s :
  starts_with [BACKTICK] (remove_matches FENCE O s) = true ->
  starts_with [BACKTICK] s = true.
Proof.
  destruct s as [|c s]; [discriminate|].
  destruct (starts_with FENCE (c :: s)) eqn:E.
  - apply starts_with_fence_inv in E as [s' E]. now rewrite E.
  - rewrite remove_fence_step by assumption. cbn. now rewrite !andb_true_r.
Qed.

Lemma remove_fence_head2 s :
  starts_with [BACKTICK; BACKTICK] (remove_matches FENCE O s) = true ->
  starts_with [BACKTICK; BACKTICK] s = true.
Proof.
  destruct s as [|c s]; [discriminate|].
  destruct (starts_with FENCE (c :: s)) eqn:E.
  - apply starts_with_fence_inv in E as [s' E]. now rewrite E.
  - rewrite remove_fence_step by assumption.
    cbn [starts_with]. intros H. apply andb_true_iff in H as [Hc H].
    rewrite Hc. cbn [andb].
    exact (remove_fence_head1 s H).
Qed.

Lemma remove_fence_clean_upto n : forall s,
  (List.length s <= n)%nat -> includes FENCE (remove_matches FENCE O s) = false.
Proof.
  induction n as [|n IH]; intros s Hlen.
  - destruct s; [reflexivity | cbn in Hlen; lia].
  - destruct s as [|c s]; [reflexivity|].
    destruct (starts_with FENCE (c :: s)) eqn:E.
    + destruct (starts_with_fence_inv _ E) as [s' E']. rewrite E', remove_fence_match.
      apply IH. rewrite E' in Hlen. cbn [List.length] in Hlen. lia.
    + rewrite remove_fence_step by assumption.
      change (includes FENCE (c :: remove_matches FENCE O s))
        with (starts_with FENCE (c :: remove_matches FENCE O s)
              || includes FENCE (remove_matches FENCE O s))%bool.
      rewrite (IH s) by (cbn [List.length] in Hlen; lia).
      rewrite orb_false_r.
      destruct (starts_with FENCE (c :: remove_matches FENCE O s)) eqn:E2; [|reflexivity].
      exfalso.
      change FENCE with [BACKTICK; BACKTICK; BACKTICK] in E, E2.
      cbn [starts_with] in E, E2.
      apply andb_true_iff in E2 as [Hc H2].
      rewrite Hc in E. cbn [andb] in E.
      pose proof (remove_fence_head2 s) as Hh. cbn [starts_with] in Hh.
      rewrite (Hh H2) in E. discriminate.
Qed.

Lemma remove_fence_clean s : includes FENCE (remove_matches FENCE O s) = false.
Proof. now apply (remove_fence_clean_upto (List.length s)). Qed.

(** *** [trim] keeps what a text does not include *)

Lemma includes_cons p c s : includes p (c :: s) = false -> includes p s = false.
Proof.
  change (includes p (c :: s)) with (starts_with p (c :: s) || includes p s)%bool.
  intros H. now apply orb_false_iff in H.
Qed.

Lemma includes_suffix p w s : includes p (w ++ s) = false -> includes p s = false.
Proof.
  induction w as [|c w IH]; [trivial|]. intros H. apply IH. exact (includes_cons _ _ _ H).
Qed.

Lemma starts_with_prefix p s t :
  starts_with p s = true -> starts_with p (s ++ t) = true.
Proof.
  revert s; induction p as [|x p IH]; intros s; [reflexivity|].
  destruct s as [|y s]; [discriminate|]. cbn [starts_with app].
  intros H. apply andb_true_iff in H as [-> H]. cbn [andb]. now apply IH.
Qed.

Lemma includes_prefix p s t : includes p (s ++ t) = false -> includes p s = false.
Proof.
  induction s as [|c s IH]; intros H.
  - cbn [includes]. rewrite orb_false_r.
    destruct (starts_with p []) eqn:E; [|reflexivity].
    apply (starts_with_prefix _ _ t) in E. cbn [app] in E, H.
    destruct t; cbn [includes] in H; apply orb_false_iff in H as [H _]; congruence.
  - change (includes p (c :: s)) with (starts_with p (c :: s) || includes p s)%bool.
    change (includes p ((c :: s) ++ t))
      with (starts_with p ((c :: s) ++ t) || includes p (s ++ t))%bool in H.
    apply orb_false_iff in H as [H1 H2]. rewrite (IH H2), orb_false_r.
    destruct (starts_with p (c :: s)) eqn:E; [|reflexivity].
    apply (starts_with_prefix _ _ t) in E. congruence.
Qed.

Lemma trim_start_suffix s : exists w, s = w ++ trim_start s.
Proof.
  induction s as [|c s [w IH]]; [now exists []|].
  cbn [trim_start]. destruct (is_js_whitespace c).
  - exists (c :: w). cbn [app]. now f_equal.
  - now exists [].
Qed.

Lemma trim_end_prefix s : exists w, s = trim_end s ++ w.
Proof.
  unfold trim_end. destruct (trim_start_suffix (rev s)) as [w E].
  exists (rev w). rewrite <- rev_app_distr, <- E. now rewrite rev_involutive.
Qed.

Lemma includes_trim p s : includes p s = false -> includes p (trim s) = false.
Proof.
  intros H. unfold trim.
  destruct (trim_start_suffix s) as [w E]. rewrite E in H. apply includes_suffix in H.
  destruct (trim_end_prefix (trim_start s)) as [w' E']. rewrite E' in H.
  now apply includes_prefix in H.
Qed.

(** *** [trim] twice is [trim] *)

Lemma trim_start_no_leading s : no_leading_space (trim_start s).
Proof.
  induction s as [|c s IH]; [exact I|].
  cbn [trim_start]. destruct (is_js_whitespace c) eqn:E; [exact IH | exact E].
Qed.

Lemma trim_start_fixed s : no_leading_space s -> trim_start s = s.
Proof. destruct s as [|c s]; [reflexivity|]. intros H. now apply trim_start_head. Qed.

Lemma trim_start_snoc s c :
  is_js_whitespace c = false -> trim_start (s ++ [c]) = trim_start s ++ [c].
Proof.
  intros H. induction s as [|x s IH]; cbn [app trim_start].
  - now rewrite H.
  - destruct (is_js_whitespace x); [exact IH | reflexivity].
Qed.

Lemma trim_end_no_trailing s : no_trailing_space (trim_end s).
Proof.
  unfold no_trailing_space, trim_end. rewrite rev_involutive. apply trim_start_no_leading.
Qed.

Lemma trim_end_fixed s : no_trailing_space s -> trim_end s = s.
Proof.
  unfold no_trailing_space, trim_end. intros H.
  rewrite trim_start_fixed by assumption. apply rev_involutive.
Qed.

Lemma trim_end_keeps_head s : no_leading_space s -> no_leading_space (trim_end s).
Proof.
  destruct s as [|c s]; [intros _; exact I|].
  intros H. unfold trim_end. cbn [rev]. cbn [no_leading_space] in H.
  rewrite trim_start_snoc by assumption.
  rewrite rev_app_distr. exact H.
Qed.

Lemma trim_shape s : no_leading_space (trim s) /\ no_trailing_space (trim s).
Proof.
  unfold trim. split.
  - apply trim_end_keeps_head, trim_start_no_leading.
  - apply trim_end_no_trailing.
Qed.

Lemma trim_fixed s : no_leading_space s -> no_trailing_space s -> trim s = s.
Proof.
  intros H1 H2. unfold trim. rewrite trim_start_fixed by assumption.
  now apply trim_end_fixed.
Qed.

(** X21. The first stage of the parser leaves no fence in the text, and
    no white space at its ends; applied to its own result it changes
    nothing. *)
Theorem strip_markdown_clean_result :
  forall text : jsstring,
    includes FENCE (strip_markdown text) = false
    /\ no_leading_space (strip_markdown text)
    /\ no_trailing_space (strip_markdown text)
    /\ strip_markdown (strip_markdown text) = strip_markdown text.
Proof.
  intros text.
  assert (Hf : includes FENCE (strip_markdown text) = false).
  { unfold strip_markdown, replace_all_empty. apply includes_trim, remove_fence_clean. }
  destruct (trim_shape (replace_all_empty FENCE (replace_all_empty FENCE_JSON text)))
    as [Hl Ht].
  fold (strip_markdown text) in Hl, Ht.
  repeat split; try assumption.
  set (r := strip_markdown text) in *.
  unfold strip_markdown, replace_all_empty.
  rewrite (remove_matches_absent FENCE_JSON).
  2:{ change FENCE_JSON with (FENCE ++ js "json"). now apply includes_app. }
  rewrite remove_matches_absent by assumption.
  now apply trim_fixed.
Qed.

(* ===================================================================== *)
(** ** The image part                                                     *)
(* ===================================================================== *)

Lemma split_comma_plain s : forall current,
  ~ In COMMA s -> split_comma s current = [rev current ++ s].
Proof.
  induction s as [|c s IH]; intros current Hn.
  - cbn. now rewrite app_nil_r.
  - cbn [split_comma]. destruct (N.eqb_spec c 44) as [->|_];
      [exfalso; apply Hn; now left|].
    rewrite IH by (intros H; apply Hn; now right).
    cbn [rev]. now rewrite <- app_assoc.
Qed.

Lemma split_comma_first s rest : forall current,
  ~ In COMMA s ->
  split_comma (s ++ COMMA :: rest) current = (rev current ++ s) :: split_comma rest [].
Proof.
  induction s as [|c s IH]; intros current Hn.
  - cbn. now rewrite app_nil_r.
  - cbn [app split_comma]. destruct (N.eqb_spec c 44) as [->|_];
      [exfalso; apply Hn; now left|].
    rewrite IH by (intros H; apply Hn; now right).
    cbn [rev]. now rewrite <- app_assoc.
Qed.

Lemma char_of_not_comma n : Base64.char_of n <> COMMA.
Proof.
  unfold Base64.char_of, COMMA.
  destruct (N.ltb_spec n 26); [lia|].
  destruct (N.ltb_spec n 52); [lia|].
  destruct (N.ltb_spec n 62); [lia|].
  destruct (N.eqb n 62); lia.
Qed.

Lemma chars_of_bytes_no_comma l : ~ In COMMA (Base64.chars_of_bytes l).
Proof.
  induction l as [| a | a b | a b c rest IH] using list_ind3.
  - intros [].
  - cbn [Base64.chars_of_bytes In]. intros H.
    repeat (destruct H as [H|H];
            [first [now apply char_of_not_comma in H | discriminate H]|]).
    exact H.
  - cbn [Base64.chars_of_bytes In]. intros H.
    repeat (destruct H as [H|H];
            [first [now apply char_of_not_comma in H | discriminate H]|]).
    exact H.
  - cbn [Base64.chars_of_bytes In]. intros H.
    repeat (destruct H as [H|H]; [now apply char_of_not_comma in H|]).
    exact (IH H).
Qed.

(** X22. When the file is read as a data URL whose header has no comma,
    the part carries exactly the base64 text after the first comma and
    the file's type, and that text decodes to the bytes of the file.  A
    result without any comma gives a part without data; a failed read
    rejects. *)
Theorem fileToGenerativePart_payload :
  forall (fileType header : jsstring) (bytes : list N),
    ~ In COMMA header ->
    Forall (fun b => (b < 256)%N) bytes ->
    fileToGenerativePart fileType
      (Loaded (header ++ COMMA :: Base64.chars_of_bytes bytes))
    = PartResolved {| partData := Some (Base64.chars_of_bytes bytes);
                      partMimeType := fileType |}
    /\ decode (Base64.chars_of_bytes bytes) = Normal bytes
    /\ fileToGenerativePart fileType (Loaded header)
       = PartResolved {| partData := None; partMimeType := fileType |}
    /\ fileToGenerativePart fileType ReadFailed = PartRejected.
Proof.
  intros fileType header bytes Hh Hb. repeat split.
  - unfold fileToGenerativePart.
    rewrite split_comma_first by assumption.
    rewrite split_comma_plain by apply chars_of_bytes_no_comma. reflexivity.
  - now apply decode_chars_of_bytes.
  - unfold fileToGenerativePart. now rewrite split_comma_plain.
Qed.

Lemma fileToGenerativePart_payload_witness :
  fileToGenerativePart (js "image/png")
    (Loaded (js "data:image/png;base64," ++ js "iVBORw=="))
  = PartResolved {| partData := Some (js "iVBORw=="); partMimeType := js "image/png" |}.
Proof.
  refine (proj1 (fileToGenerativePart_payload (js "image/png") (js "data:image/png;base64")
                   [137; 80; 78; 71]%N _ _)).
  - vm_compute. intuition discriminate.
  - repeat constructor.
Defined.
